(** * The Genius (Simon) sequence game of [App.tsx]

    A shallow embedding of the game logic of the React component [App]:
    the state hooks, the handlers [startGame], [addNewToSequence],
    [handlePlayerInput], the asynchronous [playSequence] with the effect that
    launches it, and the timers they register.

    Conventions of the embedding.
    - A handler runs against the values of the render it was created in and
      queues state updates; React applies the queue in order afterwards.  A
      handler is therefore a function from the rendered [State] to the list of
      [Action]s it performs, in program order, and [commit] applies the queue.
    - [Math.random()] is an input: a rational [r], which the runtime promises
      to satisfy [0 <= r < 1].  The product with the array length 4 is exact
      in binary floating point, so [Math.floor] agrees with [Qfloor].
    - Counters are JavaScript numbers; they are modelled as [nat], which
      agrees with the code below 2^53.
    - The table of loaded sounds, [soundObjects], is kept apart from the game
      state: it only decides what a call of [playSound] comes to, which is
      recorded as an action and has no effect on the game state.  Storing
      the table, [setSoundObjects], is an action all the same: it re-creates
      [playSound] and with it [playSequence], a dependency of the effect
      that starts the playback. *)

From Stdlib Require Import String Ascii Arith Bool Lia ZArith QArith Qround.
From Stdlib Require Import DecimalString List.
Import ListNotations.

Local Close Scope Q_scope.
Local Open Scope string_scope.
Local Open Scope nat_scope.
Local Open Scope list_scope.

(** ** Values and constants *)

(** [ColorType] is [string] for the type checker; at run time an array read
    out of range produces [undefined], which is kept as a value of its own. *)
Inductive ColorType : Type :=
| undefined
| Str (s : string).

Definition ColorType_eqb (a b : ColorType) : bool :=
  match a, b with
  | undefined, undefined => true
  | Str x, Str y => String.eqb x y
  | _, _ => false
  end.

Module COLORS.
Definition GREEN : ColorType := Str "green".
Definition RED : ColorType := Str "red".
Definition YELLOW : ColorType := Str "yellow".
Definition BLUE : ColorType := Str "blue".
End COLORS.

(** The key of the error sound in [SOUNDS]. *)
Definition ERROR : ColorType := Str "ERROR".

Definition SEQUENCE_DELAY : nat := 800.
Definition HIGHLIGHT_DURATION : nat := 300.

(** [Object.values(COLORS)]: the values in insertion order. *)
Definition colorsArray : list ColorType :=
  [COLORS.GREEN; COLORS.RED; COLORS.YELLOW; COLORS.BLUE].

(** [xs[i]] for a natural index, and for an arbitrary integer index. *)
Definition index (xs : list ColorType) (i : nat) : ColorType :=
  nth i xs undefined.

Definition array_get (xs : list ColorType) (i : Z) : ColorType :=
  if (i <? 0)%Z then undefined else index xs (Z.to_nat i).

(** ** The component state

    [State] holds the hooks of the game: the sequence, the player's input,
    the two scores, the game state and the highlighted button.  The seventh
    hook, [soundObjects], is kept apart (see Sounds): the game logic never
    reads it, and [playSound] is its only reader. *)

Inductive GameState : Type := idle | watching | playing | gameOver.

Definition GameState_eqb (a b : GameState) : bool :=
  match a, b with
  | idle, idle | watching, watching | playing, playing | gameOver, gameOver => true
  | _, _ => false
  end.

Record State : Type := mkState {
  sequence : list ColorType;
  playerSequence : list ColorType;
  currentScore : nat;
  highScore : nat;
  gameState : GameState;
  activeButton : option ColorType
}.

(** The values of these [useState] calls on mount. *)
Definition initialState : State :=
  mkState [] [] 0 0 idle None.

(** ** Closures handed to the runtime *)

(** Where a suspended [playSequence] is waiting: on the highlight timer or on
    the gap timer of iteration [pb_i], over the array it captured. *)
Inductive Phase : Type := highlightWait | gapWait.

Record Playback : Type := mkPlayback {
  pb_sequence : list ColorType;
  pb_i : nat;
  pb_phase : Phase
}.

Inductive Callback : Type :=
| clearActiveButton                      (* () => setActiveButton(null) *)
| callAddNewToSequence                   (* () => { addNewToSequence(); } *)
| resumePlaySequence (k : Playback)      (* resolve of an awaited promise *)
| callStartGame.                         (* onPress: startGame *)

(** What a handler does, in program order: state updates (a value or, for
    [setSequence] and [setCurrentScore], an updater function) and calls into
    the collaborators.  [setSoundObjects] is the update that [loadSounds]
    ends with; the table it stores is dealt with under Sounds below. *)
Inductive Action : Type :=
| setSequence (f : list ColorType -> list ColorType)
| setPlayerSequence (v : list ColorType)
| setCurrentScore (f : nat -> nat)
| setHighScore (v : nat)
| setGameState (v : GameState)
| setActiveButton (v : option ColorType)
| playSound (id : ColorType)
| setTimeout (cb : Callback) (ms : nat)
| Alert_alert (title message : string) (buttons : list (string * Callback))
| setSoundObjects.

Definition apply_action (s : State) (a : Action) : State :=
  match a with
  | setSequence f =>
      mkState (f (sequence s)) (playerSequence s) (currentScore s)
              (highScore s) (gameState s) (activeButton s)
  | setPlayerSequence v =>
      mkState (sequence s) v (currentScore s)
              (highScore s) (gameState s) (activeButton s)
  | setCurrentScore f =>
      mkState (sequence s) (playerSequence s) (f (currentScore s))
              (highScore s) (gameState s) (activeButton s)
  | setHighScore v =>
      mkState (sequence s) (playerSequence s) (currentScore s)
              v (gameState s) (activeButton s)
  | setGameState v =>
      mkState (sequence s) (playerSequence s) (currentScore s)
              (highScore s) v (activeButton s)
  | setActiveButton v =>
      mkState (sequence s) (playerSequence s) (currentScore s)
              (highScore s) (gameState s) v
  | playSound _ | setTimeout _ _ | Alert_alert _ _ _ | setSoundObjects => s
  end.

(** The state of the next render: the queued updates applied in order. *)
Definition commit (s : State) (acts : list Action) : State :=
  fold_left apply_action acts s.

(** The timers a handler registered, with their delays. *)
Fixpoint timeouts (acts : list Action) : list (Callback * nat) :=
  match acts with
  | [] => []
  | setTimeout cb ms :: rest => (cb, ms) :: timeouts rest
  | _ :: rest => timeouts rest
  end.

(** ** Game logic *)

(** [colorsArray[Math.floor(Math.random() * colorsArray.length)]] *)
Definition nextColor (r : Q) : ColorType :=
  array_get colorsArray
            (Qfloor (Qmult r (inject_Z (Z.of_nat (length colorsArray))))).

Definition addNewToSequence (r : Q) : list Action :=
  [setSequence (fun prev => prev ++ [nextColor r])].

Definition startGame (r : Q) : list Action :=
  [setSequence (fun _ => []);
   setPlayerSequence [];
   setCurrentScore (fun _ => 0);
   setGameState watching]
  ++ addNewToSequence r.

(** Decimal rendering of a counter inside a template string. *)
Definition show (n : nat) : string :=
  NilEmpty.string_of_uint (Nat.to_uint n).

Definition newline : string := String (ascii_of_nat 10) "".

(** One turn of the [for] loop of [playSequence], entered at index [i], up to
    its first [await] (or to the end of the function). *)
Definition playSequence_loop (seq : list ColorType) (i : nat) : list Action :=
  if i <? length seq then
    [setActiveButton (Some (index seq i));
     playSound (index seq i);
     setTimeout (resumePlaySequence (mkPlayback seq i highlightWait))
                HIGHLIGHT_DURATION]
  else
    [setGameState playing;
     setPlayerSequence []].

(** The continuation after an [await]. *)
Definition playSequence_resume (k : Playback) : list Action :=
  let seq := pb_sequence k in
  let i := pb_i k in
  match pb_phase k with
  | highlightWait =>
      setActiveButton None ::
      (if i <? length seq - 1 then
         [setTimeout (resumePlaySequence (mkPlayback seq i gapWait))
                     (SEQUENCE_DELAY - HIGHLIGHT_DURATION)]
       else playSequence_loop seq (S i))
  | gapWait => playSequence_loop seq (S i)
  end.

Definition playSequence (s : State) : list Action :=
  if negb (GameState_eqb (gameState s) watching) || (length (sequence s) =? 0)
  then []
  else playSequence_loop (sequence s) 0.

Definition handlePlayerInput (s : State) (color : ColorType) : list Action :=
  if negb (GameState_eqb (gameState s) playing) then []
  else
    let newPlayerSequence := playerSequence s ++ [color] in
    [playSound color;
     setActiveButton (Some color);
     setTimeout clearActiveButton (HIGHLIGHT_DURATION / 2);
     setPlayerSequence newPlayerSequence]
    ++
    if negb (ColorType_eqb
               (index newPlayerSequence (length newPlayerSequence - 1))
               (index (sequence s) (length newPlayerSequence - 1)))
    then
      [playSound ERROR;
       setGameState gameOver]
      ++ (if highScore s <? currentScore s
          then [setHighScore (currentScore s)] else [])
      ++ [Alert_alert
            "Game Over!"
            ("Your score: " ++ show (currentScore s) ++ newline
             ++ "High Score: "
             ++ show (if (highScore s <? currentScore s)%nat
                      then currentScore s else highScore s))%string
            [("Try Again", callStartGame)]]
    else if length newPlayerSequence =? length (sequence s) then
      [setCurrentScore (fun prev => prev + 1);
       setGameState watching;
       setTimeout callAddNewToSequence 1000]
    else [].

(** The body of a closure when the runtime calls it; [r] is what
    [Math.random()] returns should the closure draw a colour. *)
Definition run_callback (cb : Callback) (r : Q) : list Action :=
  match cb with
  | clearActiveButton => [setActiveButton None]
  | callAddNewToSequence => addNewToSequence r
  | resumePlaySequence k => playSequence_resume k
  | callStartGame => startGame r
  end.

(** ** Playback as a timed plan *)

(** A suspended [playSequence] resumes when its timer fires.  [timeline]
    follows one call through all its suspensions and lists what it does,
    each action with the time in ms since the call.  An [await] is the last
    thing a stretch of the function does, so nothing follows its timer. *)
Fixpoint timeline (fuel t : nat) (acts : list Action) : option (list (nat * Action)) :=
  match fuel with
  | 0 => None
  | S fuel' =>
      match acts with
      | [] => Some []
      | setTimeout (resumePlaySequence k) ms :: _ =>
          timeline fuel' (t + ms) (playSequence_resume k)
      | a :: rest =>
          option_map (cons (t, a)) (timeline fuel' t rest)
      end
  end.

Record PlaybackStep : Type := mkStep {
  symbol : ColorType;
  highlight_on_duration : nat;
  gap_after_duration : nat
}.

(** The plan in the words of the specification: one step per symbol, the
    highlight held for [HIGHLIGHT_DURATION], followed by a gap of
    [SEQUENCE_DELAY - HIGHLIGHT_DURATION] except after the last step. *)
Fixpoint build_playback_plan (seq : list ColorType) : list PlaybackStep :=
  match seq with
  | [] => []
  | c :: rest =>
      mkStep c HIGHLIGHT_DURATION
             (match rest with
              | [] => 0
              | _ :: _ => SEQUENCE_DELAY - HIGHLIGHT_DURATION
              end)
      :: build_playback_plan rest
  end.

(** What honouring a plan from time [t] looks like: highlight and sound,
    the highlight cleared after its duration, the next step after the gap. *)
Fixpoint plan_timeline (t : nat) (plan : list PlaybackStep) : list (nat * Action) :=
  match plan with
  | [] => []
  | p :: rest =>
      (t, setActiveButton (Some (symbol p)))
      :: (t, playSound (symbol p))
      :: (t + highlight_on_duration p, setActiveButton None)
      :: plan_timeline (t + highlight_on_duration p + gap_after_duration p) rest
  end.

Fixpoint plan_duration (plan : list PlaybackStep) : nat :=
  match plan with
  | [] => 0
  | p :: rest => highlight_on_duration p + gap_after_duration p + plan_duration rest
  end.

(** ** The running component: state, clock and pending timers

    The handlers are run one at a time, each against the render that the
    previous one left; the closures kept by timers and alerts only use the
    state setters, or values they captured on purpose (the array a playback
    iterates over), so running them late does not read stale state.  The
    runtime fires timers in the order of their due times.  [startGame] is
    offered by the idle screen, by the "Play Again?" button and by the alert
    of the failure path, which stays open until it is answered; the model
    accepts a start press in every state.  [loadSounds], started on mount,
    stores its table when the last sound has been created or has failed, at
    a time of its own, once per mount; the model does not count and accepts
    that event at any time, which only adds executions. *)

Record Sys : Type := mkSys {
  state : State;
  clock : nat;                          (* ms since mount *)
  timers : list (nat * Callback)        (* due time, closure; in registration order *)
}.

Definition initialSys : Sys := mkSys initialState 0 [].

Definition is_setSequence (a : Action) : bool :=
  match a with
  | setSequence _ => true
  | _ => false
  end.

Definition is_setSoundObjects (a : Action) : bool :=
  match a with
  | setSoundObjects => true
  | _ => false
  end.

(** The dependencies [sequence, gameState, playSequence] of the effect: a
    [setSequence] always stores a fresh array, [gameState] is compared by
    value, and [playSequence] is recreated when one of the two is or when
    [playSound] is, which [setSoundObjects] brings about by storing a fresh
    table. *)
Definition deps_changed (prev next : State) (acts : list Action) : bool :=
  existsb is_setSequence acts
  || existsb is_setSoundObjects acts
  || negb (GameState_eqb (gameState prev) (gameState next)).

(** The [useEffect] that starts the playback, run after a render. *)
Definition useEffect_playSequence (prev next : State) (acts : list Action) : list Action :=
  if deps_changed prev next acts then
    if GameState_eqb (gameState next) watching && (0 <? length (sequence next))
    then playSequence next
    else []
  else [].

Definition schedule (now : nat) (acts : list Action) : list (nat * Callback) :=
  map (fun p => (now + snd p, fst p)) (timeouts acts).

(** A handler ran at time [now]: commit its updates, register its timers,
    then run the effect against the new render. *)
Definition dispatch (y : Sys) (now : nat) (acts : list Action) : Sys :=
  let s1 := commit (state y) acts in
  let eff := useEffect_playSequence (state y) s1 acts in
  mkSys (commit s1 eff) now (timers y ++ schedule now acts ++ schedule now eff).

(** The pending timer that is due first (the one registered first among
    equals), and the others. *)
Fixpoint pop_earliest (ts : list (nat * Callback))
  : option ((nat * Callback) * list (nat * Callback)) :=
  match ts with
  | [] => None
  | t :: rest =>
      match pop_earliest rest with
      | Some (u, rest') =>
          if fst u <? fst t then Some (u, t :: rest') else Some (t, rest)
      | None => Some (t, rest)
      end
  end.

(** What can happen to the component: the player presses a start button
    ("Start Game", "Play Again?" or "Try Again") or a colour button at a time
    [at_], or the timer that is due first fires, or [loadSounds] gets to its
    end at a time [at_] and stores the table of sounds. *)
Inductive Event : Type :=
| pressStart (at_ : nat) (r : Q)
| pressColor (at_ : nat) (color : ColorType)
| timerFires (r : Q)
| soundsLoaded (at_ : nat).

(** The contract of [Math.random()]. *)
Definition random_ok (r : Q) : bool :=
  Qle_bool 0 r && negb (Qle_bool 1 r).

(** A press, or the end of [loadSounds], at time [t] comes after the last
    event and before the timers that are still pending. *)
Definition on_time (y : Sys) (t : nat) : bool :=
  (clock y <=? t) && forallb (fun p => t <=? fst p) (timers y).

Definition step (y : Sys) (e : Event) : option Sys :=
  match e with
  | pressStart t r =>
      if on_time y t && random_ok r
      then Some (dispatch y t (startGame r))
      else None
  | pressColor t color =>
      if on_time y t
      then Some (dispatch y t (handlePlayerInput (state y) color))
      else None
  | timerFires r =>
      if random_ok r then
        match pop_earliest (timers y) with
        | Some ((due, cb), rest) =>
            Some (dispatch (mkSys (state y) (clock y) rest) due (run_callback cb r))
        | None => None
        end
      else None
  | soundsLoaded t =>
      if on_time y t
      then Some (dispatch y t [setSoundObjects])
      else None
  end.

Fixpoint run (y : Sys) (es : list Event) : option Sys :=
  match es with
  | [] => Some y
  | e :: rest =>
      match step y e with
      | Some y' => run y' rest
      | None => None
      end
  end.

Inductive reachable : Sys -> Prop :=
| reachable_init : reachable initialSys
| reachable_step y e y' : reachable y -> step y e = Some y' -> reachable y'.

(** ** Sounds

    [SOUNDS] and [soundObjects] are JavaScript objects used as tables with
    string keys: association lists in insertion order, which is the order a
    [for ... in] loop visits. *)

Definition Obj (V : Type) : Type := list (string * V).

Fixpoint obj_get {V : Type} (key : string) (o : Obj V) : option V :=
  match o with
  | [] => None
  | (k, v) :: rest => if String.eqb k key then Some v else obj_get key rest
  end.

(** [o[key] = v]: the entry is overwritten in place, or added at the end. *)
Fixpoint obj_set {V : Type} (key : string) (v : V) (o : Obj V) : Obj V :=
  match o with
  | [] => [(key, v)]
  | (k, w) :: rest =>
      if String.eqb k key then (k, v) :: rest else (k, w) :: obj_set key v rest
  end.

Definition obj_keys {V : Type} (o : Obj V) : list string := map fst o.

(** The property key a value of type [ColorType | 'ERROR'] is turned into. *)
Definition key_of (c : ColorType) : string :=
  match c with
  | Str s => s
  | undefined => "undefined"
  end.

(** What [require] of a sound file gives, named by its path; [None] stands
    for a falsy entry of the table. *)
Definition Asset : Type := string.

Definition SOUNDS : Obj (option Asset) :=
  [(key_of COLORS.GREEN, Some "./assets/sounds/green.mp3");
   (key_of COLORS.RED, Some "./assets/sounds/red.mp3");
   (key_of COLORS.YELLOW, Some "./assets/sounds/yellow.mp3");
   (key_of COLORS.BLUE, Some "./assets/sounds/blue.mp3");
   ("ERROR", Some "./assets/sounds/error.mp3")].

Section Sound.

(** The sound objects of the audio library, and [Audio.Sound.createAsync],
    which yields a sound or rejects ([None]). *)
Variable Sound : Type.
Variable createAsync : Asset -> option Sound.

(** One turn of the loop of [loadSounds], for [key]; a rejected or missing
    sound is stored as [null] ([None]). *)
Definition loadSounds_step (sounds : Obj (option Asset))
           (loadedSounds : Obj (option Sound)) (key : string) : Obj (option Sound) :=
  match obj_get key sounds with
  | Some (Some asset) => obj_set key (createAsync asset) loadedSounds
  | _ => obj_set key None loadedSounds
  end.

(** The table that [loadSounds] passes to [setSoundObjects]. *)
Definition loadSounds (sounds : Obj (option Asset)) : Obj (option Sound) :=
  fold_left (loadSounds_step sounds) (obj_keys sounds) [].

(** What a call of [playSound] comes to: the sound found under the key is
    replayed, or the warning is logged. *)
Inductive SoundOutcome : Type :=
| replayAsync (sound : Sound)
| warn_not_loaded.

Definition playSound_outcome (soundObjects : Obj (option Sound)) (color : ColorType)
  : SoundOutcome :=
  match obj_get (key_of color) soundObjects with
  | Some (Some sound) => replayAsync sound
  | _ => warn_not_loaded
  end.

End Sound.

Arguments replayAsync {Sound} sound.
Arguments warn_not_loaded {Sound}.
Arguments loadSounds {Sound} createAsync sounds.
Arguments loadSounds_step {Sound} createAsync sounds loadedSounds key.
Arguments playSound_outcome {Sound} soundObjects color.

(** The sounds a list of actions asks for. *)
Fixpoint sounds_played (acts : list Action) : list ColorType :=
  match acts with
  | [] => []
  | playSound id :: rest => id :: sounds_played rest
  | _ :: rest => sounds_played rest
  end.

(** ** Rendering

    The element tree the component returns.  A child or a style written
    [cond && x] is present when [cond] holds and omitted otherwise. *)

Inductive StyleEntry : Type :=
| styles (name : string)
| backgroundColor (color : ColorType).

Inductive OnPress : Type :=
| onPress_startGame
| onPress_handlePlayerInput (color : ColorType).

#[warnings="-register-all"]
Inductive Element : Type :=
| View (style : list StyleEntry) (children : list Element)
| Text (style : list StyleEntry) (content : string)
| TouchableOpacity (style : list StyleEntry) (onPress : OnPress) (disabled : bool)
                   (children : list Element)
| StatusBar.

Definition when {A : Type} (cond : bool) (x : A) : list A :=
  if cond then [x] else [].

Definition renderButton (s : State) (color : ColorType) (style : StyleEntry) : Element :=
  TouchableOpacity
    ([styles "button"; style; backgroundColor color]
     ++ when (match activeButton s with
              | Some a => ColorType_eqb a color
              | None => false
              end) (styles "activeButton")
     ++ when (GameState_eqb (gameState s) watching
              || GameState_eqb (gameState s) gameOver) (styles "disabledButton"))
    (onPress_handlePlayerInput color)
    (negb (GameState_eqb (gameState s) playing))
    [].

Definition render (s : State) : Element :=
  if GameState_eqb (gameState s) idle then
    View [styles "container"]
         ([Text [styles "title"] "Genius Game";
           TouchableOpacity [styles "startButton"] onPress_startGame false
                            [Text [styles "startButtonText"] "Start Game"]]
          ++ when (0 <? highScore s)
                  (Text [styles "highScoreText"]
                        ("High Score: " ++ show (highScore s))%string)
          ++ [StatusBar])
  else
    View [styles "container"]
         ([StatusBar;
           Text [styles "scoreText"] ("Score: " ++ show (currentScore s))%string]
          ++ when (0 <? highScore s)
                  (Text [styles "highScoreTextSmall"]
                        ("High Score: " ++ show (highScore s))%string)
          ++ [View [styles "gameBoard"]
                   [View [styles "row"]
                         [renderButton s COLORS.GREEN (styles "greenButton");
                          renderButton s COLORS.RED (styles "redButton")];
                    View [styles "row"]
                         [renderButton s COLORS.YELLOW (styles "yellowButton");
                          renderButton s COLORS.BLUE (styles "blueButton")]]]
          ++ when (GameState_eqb (gameState s) gameOver)
                  (TouchableOpacity [styles "startButton"] onPress_startGame false
                                    [Text [styles "startButtonText"] "Play Again?"])
          ++ when (GameState_eqb (gameState s) watching)
                  (Text [styles "statusText"] "Watch the sequence...")
          ++ when (GameState_eqb (gameState s) playing)
                  (Text [styles "statusText"] "Your turn!")).

(** The pressable elements of a tree, in document order: style, handler and
    whether presses are disabled. *)
Fixpoint touchables (e : Element) : list (list StyleEntry * OnPress * bool) :=
  match e with
  | View _ children => flat_map touchables children
  | TouchableOpacity style onPress disabled children =>
      (style, onPress, disabled) :: flat_map touchables children
  | Text _ _ | StatusBar => []
  end.

(** The texts of a tree, in document order. *)
Fixpoint texts (e : Element) : list string :=
  match e with
  | View _ children => flat_map texts children
  | TouchableOpacity _ _ _ children => flat_map texts children
  | Text _ content => [content]
  | StatusBar => []
  end.

(** What a press on a pressable element runs. *)
Definition press (s : State) (onPress : OnPress) (r : Q) : list Action :=
  match onPress with
  | onPress_startGame => startGame r
  | onPress_handlePlayerInput color => handlePlayerInput s color
  end.

(** ** Vocabulary of the statements *)

(** The alert of the failure path, with the two numbers it shows. *)
Definition gameOverAlert (score high : nat) : Action :=
  Alert_alert
    "Game Over!"
    ("Your score: " ++ show score ++ newline ++ "High Score: " ++ show high)%string
    [("Try Again", callStartGame)].

(** Successive calls of [addNewToSequence], each committed, with the draws
    [rs] of [Math.random()]. *)
Definition addNewToSequence_calls (s : State) (rs : list Q) : State :=
  fold_left (fun st r => commit st (addNewToSequence r)) rs s.

(** Every step runs one handler against the current render: [handler_of y e
    y0 now acts] names the handler body [acts] that event [e] runs at time
    [now], and the system [y0] it is dispatched on ([y] without the timer
    that fired). *)
Inductive handler_of (y : Sys) : Event -> Sys -> nat -> list Action -> Prop :=
| handler_start t r :
    random_ok r = true ->
    handler_of y (pressStart t r) y t (startGame r)
| handler_input t color :
    handler_of y (pressColor t color) y t (handlePlayerInput (state y) color)
| handler_timer r due cb rest :
    random_ok r = true ->
    pop_earliest (timers y) = Some ((due, cb), rest) ->
    handler_of y (timerFires r) (mkSys (state y) (clock y) rest) due (run_callback cb r)
| handler_sounds t :
    handler_of y (soundsLoaded t) y t [setSoundObjects].

Definition is_resume (cb : Callback) : Prop :=
  match cb with
  | resumePlaySequence _ => True
  | _ => False
  end.

(** The invariant behind the bound on the player sequence: while the player
    has the turn there is room for one more input, and a playback can only be
    pending over a sequence that is not empty. *)
Record Inv (y : Sys) : Prop := mkInv {
  inv_le : length (playerSequence (state y)) <= length (sequence (state y));
  inv_lt : gameState (state y) = playing ->
           length (playerSequence (state y)) < length (sequence (state y));
  inv_resume : forall due cb, In (due, cb) (timers y) -> is_resume cb ->
               sequence (state y) <> []
}.

(** Successive calls of [handlePlayerInput], each against the render the
    previous one left. *)
Definition handlePlayerInput_calls (s : State) (colors : list ColorType) : State :=
  fold_left (fun st color => commit st (handlePlayerInput st color)) colors s.

(** A player's turn that has just begun over green, red, blue. *)
Definition turn_of_three : State :=
  mkState [COLORS.GREEN; COLORS.RED; COLORS.BLUE] [] 2 5 playing None.

(** ** Sample games *)

(** Two finished games, and a round being shown. *)
Definition lost_game : State :=
  mkState [COLORS.RED; COLORS.RED; COLORS.BLUE] [COLORS.RED; COLORS.GREEN]
          7 9 gameOver None.

Definition about_to_miss : State :=
  mkState [COLORS.GREEN; COLORS.RED] [COLORS.GREEN] 3 1 playing None.

Definition showing_three : State :=
  mkState [COLORS.GREEN; COLORS.RED; COLORS.BLUE] [] 2 2 watching None.

Definition sys_showing : Sys :=
  mkSys (mkState [COLORS.GREEN; COLORS.RED] [] 1 1 watching (Some COLORS.GREEN))
        100
        [(300, resumePlaySequence
                 (mkPlayback [COLORS.GREEN; COLORS.RED] 0 highlightWait))].

(** A game started at time 0 that drew green: the first turn of the player,
    from 300 ms on. *)
Definition first_round : list Event :=
  [pressStart 0 0%Q; timerFires 0%Q].

Definition sys_first_turn : Sys :=
  mkSys (mkState [COLORS.GREEN] [] 0 0 playing None) 300 [].

(** The same first round with the sounds stored at 100 ms, while the symbol
    is shown: a second playback starts, and both come to their end (300 and
    400 ms). *)
Definition first_round_sounds : list Event :=
  [pressStart 0 0%Q; soundsLoaded 100; timerFires 0%Q; timerFires 0%Q].

Definition sys_first_turn_sounds : Sys :=
  mkSys (mkState [COLORS.GREEN] [] 0 0 playing None) 400 [].

(** The game just started, the symbol being shown. *)
Definition sys_started : Sys :=
  mkSys (mkState [COLORS.GREEN] [] 0 0 watching (Some COLORS.GREEN)) 0
        [(300, resumePlaySequence (mkPlayback [COLORS.GREEN] 0 highlightWait))].

(** One input short of completing green, red. *)
Definition sys_last_input : Sys :=
  mkSys about_to_miss 500 [].

(** The player repeats green at 400 ms; the two timers that follow clear the
    highlight of the press (550 ms) and end the playback that the change to
    [watching] started (700 ms). *)
Definition second_round : list Event :=
  first_round ++ [pressColor 400 COLORS.GREEN; timerFires 0%Q; timerFires 0%Q].

Definition sys_second_turn : Sys :=
  mkSys (mkState [COLORS.GREEN] [] 1 0 playing None) 700
        [(1400, callAddNewToSequence)].

(** The round-advance timer of 1400 ms has fired and drew yellow. *)
Definition sys_extended : Sys :=
  mkSys (mkState [COLORS.GREEN; COLORS.YELLOW] [] 1 0 playing None) 1400 [].

(** The player enters green (1500 ms) and yellow (1600 ms); four timers
    follow: the two highlights of the presses are cleared (1650, 1750 ms) and
    the playback of the two symbols reaches its second one (1900, 2400 ms). *)
Definition third_round : list Event :=
  [pressColor 1500 COLORS.GREEN; pressColor 1600 COLORS.YELLOW;
   timerFires 0%Q; timerFires 0%Q; timerFires 0%Q; timerFires 0%Q].

Definition sys_third_showing : Sys :=
  mkSys (mkState [COLORS.GREEN; COLORS.YELLOW] [COLORS.GREEN; COLORS.YELLOW]
                 2 0 watching (Some COLORS.YELLOW))
        2400
        [(2600, callAddNewToSequence);
         (2700, resumePlaySequence
                  (mkPlayback [COLORS.GREEN; COLORS.YELLOW] 1 highlightWait))].

(** The round-advance timer of 2600 ms has fired and drew red; a second
    playback has started next to the one still running. *)
Definition sys_third_extended : Sys :=
  mkSys (mkState [COLORS.GREEN; COLORS.YELLOW; COLORS.RED]
                 [COLORS.GREEN; COLORS.YELLOW] 2 0 watching (Some COLORS.GREEN))
        2600
        [(2700, resumePlaySequence
                  (mkPlayback [COLORS.GREEN; COLORS.YELLOW] 1 highlightWait));
         (2900, resumePlaySequence
                  (mkPlayback [COLORS.GREEN; COLORS.YELLOW; COLORS.RED] 0
                              highlightWait))].

(** The player misses at 900 ms instead, before the sequence was extended. *)
Definition sys_missed : Sys :=
  mkSys (mkState [COLORS.GREEN] [COLORS.RED] 1 1 gameOver (Some COLORS.RED))
        900 [(1400, callAddNewToSequence); (1050, clearActiveButton)].

(** * Properties *)

(** ** Basic facts about the embedding *)

Lemma ColorType_eqb_spec (a b : ColorType) : reflect (a = b) (ColorType_eqb a b).
Proof.
  destruct a as [|x], b as [|y]; simpl; try (constructor; congruence).
  destruct (String.eqb_spec x y); constructor; congruence.
Qed.

Lemma GameState_eqb_spec (a b : GameState) : reflect (a = b) (GameState_eqb a b).
Proof. destruct a, b; simpl; constructor; congruence. Qed.

Lemma GameState_eqb_refl (a : GameState) : GameState_eqb a a = true.
Proof. now destruct a. Qed.

Lemma timeouts_app (xs ys : list Action) :
  timeouts (xs ++ ys) = timeouts xs ++ timeouts ys.
Proof.
  induction xs as [|a xs IH]; simpl; [reflexivity|].
  destruct a; simpl; rewrite ?IH; reflexivity.
Qed.

(** The newest input sits at the last index of the new player sequence. *)
Lemma index_last (p : list ColorType) (c : ColorType) :
  index (p ++ [c]) (length (p ++ [c]) - 1) = c.
Proof.
  rewrite length_app. simpl. replace (length p + 1 - 1) with (length p) by lia.
  unfold index. rewrite app_nth2 by lia. now rewrite Nat.sub_diag.
Qed.

Lemma newest_index (p : list ColorType) (c : ColorType) :
  length (p ++ [c]) - 1 = length p.
Proof. rewrite length_app. simpl. lia. Qed.

(** [Math.floor(Math.random() * 4)] is one of 0, 1, 2, 3. *)
Lemma random_index_range (r : Q) :
  random_ok r = true ->
  (0 <= Qfloor (Qmult r (inject_Z 4)) < 4)%Z.
Proof.
  unfold random_ok. intros H.
  apply andb_true_iff in H. destruct H as [H0 H1].
  apply Qle_bool_iff in H0.
  assert (Hlt : (r < 1)%Q).
  { apply Qnot_le_lt. intros Hle. apply Qle_bool_iff in Hle.
    rewrite Hle in H1. discriminate. }
  split.
  - change 0%Z with (Qfloor (inject_Z 0)) at 1.
    apply Qfloor_resp_le.
    change (inject_Z 0) with (0 * inject_Z 4)%Q.
    apply Qmult_le_compat_r; [exact H0 | discriminate].
  - rewrite Zlt_Qlt.
    apply Qle_lt_trans with (y := (r * inject_Z 4)%Q).
    + apply Qfloor_le.
    + change (inject_Z 4) with (1 * inject_Z 4)%Q at 2.
      apply Qmult_lt_compat_r; [reflexivity | exact Hlt].
Qed.

Lemma nextColor_in_alphabet (r : Q) :
  random_ok r = true -> In (nextColor r) colorsArray.
Proof.
  intros H. apply random_index_range in H.
  unfold nextColor. change (Z.of_nat (length colorsArray)) with 4%Z.
  set (z := Qfloor (r * inject_Z 4)) in *.
  assert (Hz : z = 0%Z \/ z = 1%Z \/ z = 2%Z \/ z = 3%Z) by lia.
  destruct Hz as [-> | [-> | [-> | ->]]]; simpl; auto.
Qed.

(** ** The four paths of [handlePlayerInput] *)

Lemma handlePlayerInput_ignored (s : State) (color : ColorType) :
  gameState s <> playing -> handlePlayerInput s color = [].
Proof.
  intros H. unfold handlePlayerInput.
  destruct (GameState_eqb_spec (gameState s) playing); [contradiction | reflexivity].
Qed.

Lemma handlePlayerInput_mismatch (s : State) (color : ColorType) :
  gameState s = playing ->
  index (sequence s) (length (playerSequence s)) <> color ->
  handlePlayerInput s color =
    [playSound color;
     setActiveButton (Some color);
     setTimeout clearActiveButton 150;
     setPlayerSequence (playerSequence s ++ [color]);
     playSound ERROR;
     setGameState gameOver]
    ++ (if highScore s <? currentScore s then [setHighScore (currentScore s)] else [])
    ++ [gameOverAlert (currentScore s) (Nat.max (highScore s) (currentScore s))].
Proof.
  intros Hp Hne. unfold handlePlayerInput. rewrite Hp. cbv zeta.
  rewrite index_last, newest_index.
  destruct (ColorType_eqb_spec color (index (sequence s) (length (playerSequence s))))
    as [E | _]; [symmetry in E; contradiction |].
  cbn [negb GameState_eqb app]. unfold gameOverAlert.
  destruct (Nat.ltb_spec (highScore s) (currentScore s)).
  - now rewrite Nat.max_r by lia.
  - now rewrite Nat.max_l by lia.
Qed.

Lemma handlePlayerInput_complete (s : State) (color : ColorType) :
  gameState s = playing ->
  index (sequence s) (length (playerSequence s)) = color ->
  length (playerSequence s ++ [color]) = length (sequence s) ->
  handlePlayerInput s color =
    [playSound color;
     setActiveButton (Some color);
     setTimeout clearActiveButton 150;
     setPlayerSequence (playerSequence s ++ [color]);
     setCurrentScore (fun prev => prev + 1);
     setGameState watching;
     setTimeout callAddNewToSequence 1000].
Proof.
  intros Hp He Hl. unfold handlePlayerInput. rewrite Hp. cbv zeta.
  rewrite index_last, newest_index, He.
  destruct (ColorType_eqb_spec color color) as [_ | N]; [| now elim N].
  rewrite Hl, Nat.eqb_refl. reflexivity.
Qed.

Lemma handlePlayerInput_partial (s : State) (color : ColorType) :
  gameState s = playing ->
  index (sequence s) (length (playerSequence s)) = color ->
  length (playerSequence s ++ [color]) <> length (sequence s) ->
  handlePlayerInput s color =
    [playSound color;
     setActiveButton (Some color);
     setTimeout clearActiveButton 150;
     setPlayerSequence (playerSequence s ++ [color])].
Proof.
  intros Hp He Hl. unfold handlePlayerInput. rewrite Hp. cbv zeta.
  rewrite index_last, newest_index, He.
  destruct (ColorType_eqb_spec color color) as [_ | N]; [| now elim N].
  apply Nat.eqb_neq in Hl. rewrite Hl. reflexivity.
Qed.

(** ** The failure path *)

(** C1. A call of [handlePlayerInput] in state [playing] whose new symbol
    differs from the sequence symbol at the same index plays the error
    sound, moves to [gameOver], leaves the high score at the maximum of the
    old high score and the score, raises the game-over alert with the score
    and that maximum, and ends there: the alert is its last action, the score
    is not incremented and no round advance is scheduled. *)
Theorem mismatch_ends_game (s : State) (color : ColorType) :
  gameState s = playing ->
  index (sequence s) (length (playerSequence s)) <> color ->
  In (playSound ERROR) (handlePlayerInput s color)
  /\ gameState (commit s (handlePlayerInput s color)) = gameOver
  /\ highScore (commit s (handlePlayerInput s color))
     = Nat.max (highScore s) (currentScore s)
  /\ last (handlePlayerInput s color) (playSound undefined)
     = Alert_alert
         "Game Over!"
         ("Your score: " ++ show (currentScore s) ++ newline ++ "High Score: "
          ++ show (Nat.max (highScore s) (currentScore s)))%string
         [("Try Again", callStartGame)]
  /\ currentScore (commit s (handlePlayerInput s color)) = currentScore s
  /\ sequence (commit s (handlePlayerInput s color)) = sequence s
  /\ timeouts (handlePlayerInput s color) = [(clearActiveButton, 150)].
Proof.
  intros Hp Hne. rewrite (handlePlayerInput_mismatch s color Hp Hne).
  destruct (Nat.ltb_spec (highScore s) (currentScore s)) as [Hlt | Hge].
  - rewrite Nat.max_r by lia. cbn. repeat split; auto 10.
  - rewrite Nat.max_l by lia. cbn. repeat split; auto 10.
Qed.

Lemma mismatch_ends_game_witness :
  In (playSound ERROR) (handlePlayerInput about_to_miss COLORS.BLUE)
  /\ gameState (commit about_to_miss (handlePlayerInput about_to_miss COLORS.BLUE))
     = gameOver
  /\ highScore (commit about_to_miss (handlePlayerInput about_to_miss COLORS.BLUE))
     = 3.
Proof.
  destruct (mismatch_ends_game about_to_miss COLORS.BLUE) as (H1 & H2 & H3 & _).
  - reflexivity.
  - discriminate.
  - split; [exact H1 | split; [exact H2 | exact H3]].
Defined.

(** ** The effect and the dispatcher *)

(** The effect only ever starts a playback: it touches [activeButton] and
    registers at most the first highlight timer. *)
Lemma useEffect_playSequence_cases (prev next : State) (acts : list Action) :
  useEffect_playSequence prev next acts = []
  \/ (sequence next <> []
      /\ useEffect_playSequence prev next acts =
           [setActiveButton (Some (index (sequence next) 0));
            playSound (index (sequence next) 0);
            setTimeout (resumePlaySequence (mkPlayback (sequence next) 0 highlightWait))
                       HIGHLIGHT_DURATION]).
Proof.
  unfold useEffect_playSequence, playSequence, playSequence_loop.
  destruct (deps_changed prev next acts); [| now left].
  destruct (GameState_eqb (gameState next) watching); simpl; [| now left].
  destruct (sequence next) as [|c rest]; simpl; [now left |].
  right. split; [discriminate | reflexivity].
Qed.

Lemma useEffect_frame (prev next : State) (acts : list Action) :
  let s' := commit next (useEffect_playSequence prev next acts) in
  sequence s' = sequence next
  /\ playerSequence s' = playerSequence next
  /\ currentScore s' = currentScore next
  /\ highScore s' = highScore next
  /\ gameState s' = gameState next.
Proof.
  destruct (useEffect_playSequence_cases prev next acts) as [E | [_ E]];
    rewrite E; cbn; auto.
Qed.

Lemma dispatch_state (y : Sys) (now : nat) (acts : list Action) :
  let s1 := commit (state y) acts in
  let s' := state (dispatch y now acts) in
  sequence s' = sequence s1
  /\ playerSequence s' = playerSequence s1
  /\ currentScore s' = currentScore s1
  /\ highScore s' = highScore s1
  /\ gameState s' = gameState s1.
Proof. unfold dispatch. cbn [state]. apply useEffect_frame. Qed.

Lemma step_pressColor (y : Sys) (t : nat) (color : ColorType) (y' : Sys) :
  step y (pressColor t color) = Some y' ->
  y' = dispatch y t (handlePlayerInput (state y) color).
Proof.
  cbn [step]. destruct (on_time y t); intros H; now inversion H.
Qed.

(** C2. A call of [handlePlayerInput] in state [playing] whose symbol matches
    the sequence at the same index and completes the player sequence
    increments the score by exactly 1, moves from [playing] to [watching] and
    registers a timer 1000 ms ahead whose callback is [addNewToSequence]; that
    callback extends the sequence by exactly one symbol. *)
Theorem round_complete_advances (y : Sys) (t : nat) (color : ColorType) (y' : Sys) :
  gameState (state y) = playing ->
  index (sequence (state y)) (length (playerSequence (state y))) = color ->
  length (playerSequence (state y) ++ [color]) = length (sequence (state y)) ->
  step y (pressColor t color) = Some y' ->
  currentScore (state y') = currentScore (state y) + 1
  /\ gameState (state y') = watching
  /\ sequence (state y') = sequence (state y)
  /\ timeouts (handlePlayerInput (state y) color)
     = [(clearActiveButton, 150); (callAddNewToSequence, 1000)]
  /\ In (t + 1000, callAddNewToSequence) (timers y')
  /\ (forall (s : State) (r : Q),
        sequence (commit s (run_callback callAddNewToSequence r))
        = sequence s ++ [nextColor r]
        /\ length (sequence (commit s (run_callback callAddNewToSequence r)))
           = length (sequence s) + 1).
Proof.
  intros Hp He Hl Hs. apply step_pressColor in Hs. subst y'.
  destruct (dispatch_state y t (handlePlayerInput (state y) color))
    as (Hseq & _ & Hsc & _ & Hgs).
  rewrite Hseq, Hsc, Hgs.
  unfold dispatch. cbn [timers].
  rewrite (handlePlayerInput_complete _ _ Hp He Hl).
  repeat split.
  - apply in_or_app. right. apply in_or_app. left. cbn. auto.
  - cbn. now rewrite length_app.
Qed.

Lemma round_complete_advances_witness :
  currentScore
    (state (dispatch sys_first_turn 400
                     (handlePlayerInput (state sys_first_turn) COLORS.GREEN))) = 1
  /\ gameState
       (state (dispatch sys_first_turn 400
                        (handlePlayerInput (state sys_first_turn) COLORS.GREEN)))
     = watching
  /\ In (1400, callAddNewToSequence)
        (timers (dispatch sys_first_turn 400
                          (handlePlayerInput (state sys_first_turn) COLORS.GREEN))).
Proof.
  destruct (round_complete_advances sys_first_turn 400 COLORS.GREEN _
              eq_refl eq_refl eq_refl eq_refl) as (H1 & H2 & _ & _ & H5 & _).
  split; [exact H1 | split; [exact H2 | exact H5]].
Defined.

(** C4. A call of [handlePlayerInput] while the game state is [watching],
    [idle] or [gameOver] does nothing: no action is performed, and the game
    state, player sequence, sequence, score and high score (the whole
    component state and the pending timers) are unchanged. *)
Theorem input_ignored_unless_playing (y : Sys) (t : nat) (color : ColorType) (y' : Sys) :
  gameState (state y) = watching \/ gameState (state y) = idle
  \/ gameState (state y) = gameOver ->
  step y (pressColor t color) = Some y' ->
  handlePlayerInput (state y) color = []
  /\ state y' = state y
  /\ timers y' = timers y.
Proof.
  intros Hg Hs. apply step_pressColor in Hs. subst y'.
  assert (Hn : gameState (state y) <> playing)
    by (destruct Hg as [E | [E | E]]; rewrite E; discriminate).
  rewrite (handlePlayerInput_ignored _ _ Hn).
  unfold dispatch, useEffect_playSequence, deps_changed. cbn.
  rewrite GameState_eqb_refl. cbn.
  split; [reflexivity | split; [reflexivity | now rewrite app_nil_r]].
Qed.

Lemma input_ignored_unless_playing_witness :
  state (dispatch sys_showing 200 (handlePlayerInput (state sys_showing) COLORS.RED))
  = state sys_showing.
Proof.
  exact (proj1 (proj2 (input_ignored_unless_playing sys_showing 200 COLORS.RED _
                         (or_introl eq_refl) eq_refl))).
Defined.

(** C5. [startGame], called after a game that ended with any score (or from
    the idle screen), first resets the sequence and the player sequence to
    empty, the score to 0 and the game state to [watching], and then calls
    [addNewToSequence], so the sequence holds exactly one freshly drawn
    symbol of the alphabet. *)
Theorem startGame_resets (s : State) (r : Q) :
  random_ok r = true ->
  gameState s = idle \/ gameState s = gameOver ->
  commit s (startGame r)
  = commit (mkState [] [] 0 (highScore s) watching (activeButton s))
           (addNewToSequence r)
  /\ sequence (commit s (startGame r)) = [nextColor r]
  /\ In (nextColor r) colorsArray
  /\ playerSequence (commit s (startGame r)) = []
  /\ currentScore (commit s (startGame r)) = 0
  /\ gameState (commit s (startGame r)) = watching.
Proof.
  intros Hr _. cbn. repeat split. now apply nextColor_in_alphabet.
Qed.

Lemma startGame_resets_witness :
  sequence (commit lost_game (startGame (3 # 4))) = [COLORS.BLUE].
Proof.
  exact (proj1 (proj2 (startGame_resets lost_game (3 # 4)
                         eq_refl (or_intror eq_refl)))).
Defined.

(** C10. [startGame] has no guard on the game state: called in any state
    whatsoever ([watching] and [playing] included) it performs the same
    reset, leaving the sequence with the one new symbol, the player sequence
    empty, the score 0 and the game state [watching]; only the high score and
    the highlighted button carry over.  A press on a start button is thus
    carried out whatever the state of the running component. *)
Theorem startGame_unguarded (s : State) (r : Q) :
  commit s (startGame r)
  = mkState [nextColor r] [] 0 (highScore s) watching (activeButton s)
  /\ (forall y t,
        state y = s -> on_time y t = true -> random_ok r = true ->
        exists y',
          step y (pressStart t r) = Some y'
          /\ sequence (state y') = [nextColor r]
          /\ playerSequence (state y') = []
          /\ currentScore (state y') = 0
          /\ highScore (state y') = highScore s
          /\ gameState (state y') = watching).
Proof.
  split; [reflexivity |].
  intros y t Hs Ht Hr. exists (dispatch y t (startGame r)).
  cbn [step]. rewrite Ht, Hr. cbn [andb].
  destruct (dispatch_state y t (startGame r)) as (H1 & H2 & H3 & H4 & H5).
  rewrite H1, H2, H3, H4, H5, Hs. repeat split.
Qed.

Lemma startGame_unguarded_witness :
  exists y',
    step (mkSys about_to_miss 500 []) (pressStart 600 (1 # 4)) = Some y'
    /\ sequence (state y') = [COLORS.RED]
    /\ playerSequence (state y') = []
    /\ currentScore (state y') = 0
    /\ highScore (state y') = 1
    /\ gameState (state y') = watching.
Proof.
  exact (proj2 (startGame_unguarded about_to_miss (1 # 4))
               (mkSys about_to_miss 500 []) 600 eq_refl eq_refl eq_refl).
Defined.

(** ** Symbol generation *)

Lemma addNewToSequence_calls_sequence (rs : list Q) (s : State) :
  sequence (addNewToSequence_calls s rs) = sequence s ++ map nextColor rs.
Proof.
  revert s. induction rs as [|r rs IH]; intros s.
  - simpl. now rewrite app_nil_r.
  - unfold addNewToSequence_calls in *. cbn [fold_left]. rewrite IH. cbn.
    now rewrite <- app_assoc.
Qed.

(** C8. From any starting sequence, each call of [addNewToSequence] appends
    exactly one symbol, a member of the alphabet green, red, yellow, blue;
    so N calls extend the sequence by N such symbols, and N calls from the
    empty sequence give a sequence of length N made of alphabet symbols. *)
Theorem addNewToSequence_grows (s : State) (rs : list Q) :
  Forall (fun r => random_ok r = true) rs ->
  (forall r, random_ok r = true ->
     sequence (commit s (addNewToSequence r)) = sequence s ++ [nextColor r]
     /\ In (nextColor r) [Str "green"; Str "red"; Str "yellow"; Str "blue"])
  /\ sequence (addNewToSequence_calls s rs) = sequence s ++ map nextColor rs
  /\ length (sequence (addNewToSequence_calls s rs)) = length (sequence s) + length rs
  /\ Forall (fun c => In c colorsArray) (map nextColor rs)
  /\ (sequence s = [] ->
      length (sequence (addNewToSequence_calls s rs)) = length rs
      /\ Forall (fun c => In c colorsArray) (sequence (addNewToSequence_calls s rs))).
Proof.
  intros Hrs.
  assert (Hall : Forall (fun c => In c colorsArray) (map nextColor rs)).
  { apply Forall_map. eapply Forall_impl; [| exact Hrs].
    intros r Hr. now apply nextColor_in_alphabet. }
  rewrite addNewToSequence_calls_sequence.
  split; [| split; [| split; [| split]]].
  - intros r Hr. split; [reflexivity | now apply nextColor_in_alphabet].
  - reflexivity.
  - now rewrite length_app, length_map.
  - exact Hall.
  - intros ->. simpl. now rewrite length_map.
Qed.

Lemma addNewToSequence_grows_witness :
  sequence (addNewToSequence_calls initialState [0; 1 # 2; 3 # 4; 1 # 3]%Q)
  = [COLORS.GREEN; COLORS.YELLOW; COLORS.BLUE; COLORS.RED].
Proof.
  refine (proj1 (proj2 (addNewToSequence_grows initialState
                          [0; 1 # 2; 3 # 4; 1 # 3]%Q _))).
  repeat constructor.
Defined.

(** ** Playback *)

Lemma skipn_index (seq : list ColorType) (i : nat) :
  i < length seq -> skipn i seq = index seq i :: skipn (S i) seq.
Proof.
  revert i. induction seq as [|c seq IH]; intros i Hi; simpl in Hi; [lia |].
  destruct i as [|i]; [reflexivity |].
  cbn [skipn]. unfold index in *. cbn [nth]. apply IH. lia.
Qed.

Lemma skipn_nonempty (seq : list ColorType) (i : nat) :
  i < length seq -> exists c rest, skipn i seq = c :: rest.
Proof. intros H. rewrite (skipn_index seq i H). eauto. Qed.

(** Following the loop from index [i]: it performs the plan of the remaining
    symbols and then hands the turn to the player. *)
Lemma timeline_playSequence_loop (seq : list ColorType) :
  forall m i t fuel,
    i + S m = length seq ->
    5 * S m + 3 <= fuel ->
    timeline fuel t (playSequence_loop seq i)
    = Some (plan_timeline t (build_playback_plan (skipn i seq))
            ++ [(t + plan_duration (build_playback_plan (skipn i seq)),
                 setGameState playing);
                (t + plan_duration (build_playback_plan (skipn i seq)),
                 setPlayerSequence [])]).
Proof.
  induction m as [|m IH]; intros i t fuel Hi Hfuel.
  - destruct (Nat.le_exists_sub 8 fuel) as [k [-> _]]; [lia |].
    rewrite (Nat.add_comm k 8).
    rewrite (skipn_index seq i) by lia.
    rewrite (skipn_all2 seq (n := S i)) by lia.
    unfold playSequence_loop.
    destruct (Nat.ltb_spec i (length seq)) as [_ | ?]; [| lia].
    cbn [Nat.add timeline option_map playSequence_resume pb_phase pb_sequence pb_i].
    destruct (Nat.ltb_spec i (length seq - 1)) as [? | _]; [lia |].
    unfold playSequence_loop.
    destruct (Nat.ltb_spec (S i) (length seq)) as [? | _]; [lia |].
    cbn. reflexivity.
  - destruct (Nat.le_exists_sub 5 fuel) as [k [-> _]]; [lia |].
    rewrite (Nat.add_comm k 5).
    rewrite (skipn_index seq i) by lia.
    destruct (skipn_nonempty seq (S i)) as (c & rest & Hsk); [lia |].
    specialize (IH (S i) (t + HIGHLIGHT_DURATION + (SEQUENCE_DELAY - HIGHLIGHT_DURATION)) k).
    rewrite Hsk in *.
    unfold playSequence_loop at 1.
    destruct (Nat.ltb_spec i (length seq)) as [_ | ?]; [| lia].
    cbn [Nat.add timeline option_map playSequence_resume pb_phase pb_sequence pb_i].
    destruct (Nat.ltb_spec i (length seq - 1)) as [_ | ?]; [| lia].
    cbn [timeline playSequence_resume pb_phase pb_sequence pb_i].
    rewrite IH by lia.
    cbn [build_playback_plan plan_timeline plan_duration option_map app
         symbol highlight_on_duration gap_after_duration].
    rewrite !Nat.add_assoc. reflexivity.
Qed.

Lemma build_playback_plan_symbols (seq : list ColorType) :
  map symbol (build_playback_plan seq) = seq.
Proof. induction seq as [|c seq IH]; simpl; congruence. Qed.

Lemma build_playback_plan_highlight (seq : list ColorType) :
  Forall (fun p => highlight_on_duration p = HIGHLIGHT_DURATION)
         (build_playback_plan seq).
Proof. induction seq as [|c seq IH]; simpl; constructor; auto. Qed.

Lemma build_playback_plan_gap (seq : list ColorType) (d : PlaybackStep) :
  forall i, i < length seq ->
    gap_after_duration (nth i (build_playback_plan seq) d)
    = if i <? length seq - 1 then SEQUENCE_DELAY - HIGHLIGHT_DURATION else 0.
Proof.
  induction seq as [|c seq IH]; intros i Hi; simpl in Hi; [lia |].
  destruct i as [|i].
  - destruct seq; reflexivity.
  - cbn [build_playback_plan nth]. rewrite IH by lia.
    cbn [length]. destruct seq as [|c' seq]; [simpl in Hi; lia |].
    cbn [length].
    destruct (Nat.ltb_spec i (S (length seq) - 1)),
             (Nat.ltb_spec (S i) (S (S (length seq)) - 1)); try reflexivity; lia.
Qed.

(** C9. For a non-empty sequence, the playback run in state [watching]
    performs exactly the plan with one step per sequence symbol in order,
    each highlighted for [HIGHLIGHT_DURATION], followed by a gap of
    [SEQUENCE_DELAY - HIGHLIGHT_DURATION] after every step but the last,
    whose gap is zero; the turn passes to the player when the plan ends. *)
Theorem playSequence_follows_plan (s : State) (fuel : nat) :
  gameState s = watching ->
  sequence s <> [] ->
  5 * length (sequence s) + 3 <= fuel ->
  timeline fuel 0 (playSequence s)
  = Some (plan_timeline 0 (build_playback_plan (sequence s))
          ++ [(plan_duration (build_playback_plan (sequence s)), setGameState playing);
              (plan_duration (build_playback_plan (sequence s)), setPlayerSequence [])])
  /\ map symbol (build_playback_plan (sequence s)) = sequence s
  /\ Forall (fun p => highlight_on_duration p = HIGHLIGHT_DURATION)
            (build_playback_plan (sequence s))
  /\ (forall i d, i < length (sequence s) - 1 ->
        gap_after_duration (nth i (build_playback_plan (sequence s)) d)
        = SEQUENCE_DELAY - HIGHLIGHT_DURATION)
  /\ (forall d,
        gap_after_duration
          (nth (length (sequence s) - 1) (build_playback_plan (sequence s)) d) = 0).
Proof.
  intros Hg Hne Hfuel.
  assert (Hlen : 0 < length (sequence s))
    by (destruct (sequence s); [congruence | simpl; lia]).
  split; [| split; [| split; [| split]]].
  - unfold playSequence. rewrite Hg. cbn [GameState_eqb negb orb].
    destruct (Nat.eqb_spec (length (sequence s)) 0) as [? | _]; [lia |].
    rewrite (timeline_playSequence_loop (sequence s) (length (sequence s) - 1) 0 0 fuel)
      by lia.
    reflexivity.
  - apply build_playback_plan_symbols.
  - apply build_playback_plan_highlight.
  - intros i d Hi. rewrite build_playback_plan_gap by lia.
    destruct (Nat.ltb_spec i (length (sequence s) - 1)); [reflexivity | lia].
  - intros d. rewrite build_playback_plan_gap by lia.
    now rewrite Nat.ltb_irrefl.
Qed.

Lemma playSequence_follows_plan_witness :
  timeline 20 0 (playSequence showing_three)
  = Some [(0, setActiveButton (Some COLORS.GREEN)); (0, playSound COLORS.GREEN);
          (300, setActiveButton None);
          (800, setActiveButton (Some COLORS.RED)); (800, playSound COLORS.RED);
          (1100, setActiveButton None);
          (1600, setActiveButton (Some COLORS.BLUE)); (1600, playSound COLORS.BLUE);
          (1900, setActiveButton None);
          (1900, setGameState playing); (1900, setPlayerSequence [])].
Proof.
  refine (proj1 (playSequence_follows_plan showing_three 20 eq_refl _ _)).
  - discriminate.
  - simpl. lia.
Defined.

(** ** Steps of the running component *)

Lemma pop_earliest_In (ts : list (nat * Callback)) :
  forall u rest, pop_earliest ts = Some (u, rest) ->
    In u ts /\ incl rest ts.
Proof.
  induction ts as [|t ts IH]; intros u rest H; simpl in H; [discriminate |].
  destruct (pop_earliest ts) as [[v rest'] |].
  - destruct (IH v rest' eq_refl) as [Hin Hincl].
    destruct (fst v <? fst t); inversion H; subst.
    + split; [now right |].
      intros x [-> | Hx]; [now left | right; now apply Hincl].
    + split; [now left | apply incl_tl, incl_refl].
  - inversion H; subst. split; [now left | apply incl_tl, incl_refl].
Qed.

Lemma step_inv (y : Sys) (e : Event) (y' : Sys) :
  step y e = Some y' ->
  exists y0 now acts, handler_of y e y0 now acts /\ y' = dispatch y0 now acts.
Proof.
  destruct e as [t r | t color | r | t]; cbn [step].
  - destruct (on_time y t); cbn [andb]; [| discriminate].
    destruct (random_ok r) eqn:Hr; [| discriminate].
    intros H; inversion H. eexists _, _, _. split; [now constructor | reflexivity].
  - destruct (on_time y t); [| discriminate].
    intros H; inversion H. eexists _, _, _. split; [constructor | reflexivity].
  - destruct (random_ok r) eqn:Hr; [| discriminate].
    destruct (pop_earliest (timers y)) as [[[due cb] rest] |] eqn:Hp; [| discriminate].
    intros H; inversion H. eexists _, _, _.
    split; [econstructor; eassumption | reflexivity].
  - destruct (on_time y t); [| discriminate].
    intros H; inversion H. eexists _, _, _. split; [constructor | reflexivity].
Qed.

Lemma handlePlayerInput_cases (s : State) (color : ColorType) :
  (gameState s <> playing /\ handlePlayerInput s color = [])
  \/ (gameState s = playing
      /\ index (sequence s) (length (playerSequence s)) <> color
      /\ handlePlayerInput s color =
           [playSound color; setActiveButton (Some color);
            setTimeout clearActiveButton 150;
            setPlayerSequence (playerSequence s ++ [color]);
            playSound ERROR; setGameState gameOver]
           ++ (if highScore s <? currentScore s
               then [setHighScore (currentScore s)] else [])
           ++ [gameOverAlert (currentScore s) (Nat.max (highScore s) (currentScore s))])
  \/ (gameState s = playing
      /\ index (sequence s) (length (playerSequence s)) = color
      /\ length (playerSequence s ++ [color]) = length (sequence s)
      /\ handlePlayerInput s color =
           [playSound color; setActiveButton (Some color);
            setTimeout clearActiveButton 150;
            setPlayerSequence (playerSequence s ++ [color]);
            setCurrentScore (fun prev => prev + 1);
            setGameState watching;
            setTimeout callAddNewToSequence 1000])
  \/ (gameState s = playing
      /\ index (sequence s) (length (playerSequence s)) = color
      /\ length (playerSequence s ++ [color]) <> length (sequence s)
      /\ handlePlayerInput s color =
           [playSound color; setActiveButton (Some color);
            setTimeout clearActiveButton 150;
            setPlayerSequence (playerSequence s ++ [color])]).
Proof.
  destruct (GameState_eqb_spec (gameState s) playing) as [Hp | Hn].
  2: { left. split; [exact Hn | now apply handlePlayerInput_ignored]. }
  right.
  destruct (ColorType_eqb_spec (index (sequence s) (length (playerSequence s))) color)
    as [He | Hne].
  2: { left. repeat split; auto. now apply handlePlayerInput_mismatch. }
  right.
  destruct (Nat.eq_dec (length (playerSequence s ++ [color])) (length (sequence s)))
    as [Hl | Hl].
  - left. repeat split; auto. now apply handlePlayerInput_complete.
  - right. repeat split; auto. now apply handlePlayerInput_partial.
Qed.

(** Case analysis on the path an input takes: ignored, mismatch, round
    complete, round still open. *)
Ltac input_paths s color :=
  destruct (handlePlayerInput_cases s color)
    as [[Hn E] | [(Hp & Hne & E) | [(Hp & He & Hl & E) | (Hp & He & Hl & E)]]].

(** A resumed playback either goes on highlighting or hands over the turn. *)
Lemma playSequence_resume_effect (k : Playback) (s : State) :
  sequence (commit s (playSequence_resume k)) = sequence s
  /\ currentScore (commit s (playSequence_resume k)) = currentScore s
  /\ highScore (commit s (playSequence_resume k)) = highScore s
  /\ ((gameState (commit s (playSequence_resume k)) = gameState s
       /\ playerSequence (commit s (playSequence_resume k)) = playerSequence s)
      \/ (gameState (commit s (playSequence_resume k)) = playing
          /\ playerSequence (commit s (playSequence_resume k)) = []))
  /\ (forall cb ms, In (cb, ms) (timeouts (playSequence_resume k)) ->
        exists k', cb = resumePlaySequence k').
Proof.
  destruct k as [seq i ph].
  unfold playSequence_resume, playSequence_loop.
  cbn [pb_sequence pb_i pb_phase].
  destruct ph;
    [destruct (i <? length seq - 1) |];
    try destruct (S i <? length seq);
    cbn; repeat split; auto;
    intros cb ms H; repeat (destruct H as [H | H]; [inversion H; eauto |]);
    contradiction.
Qed.

Lemma in_schedule (now : nat) (acts : list Action) (due : nat) (cb : Callback) :
  In (due, cb) (schedule now acts) <->
  exists ms, In (cb, ms) (timeouts acts) /\ due = now + ms.
Proof.
  unfold schedule. rewrite in_map_iff. split.
  - intros [[cb' ms] [E H]]. cbn in E. inversion E; subst. eauto.
  - intros [ms [H ->]]. exists (cb, ms). auto.
Qed.

(** The timers the effect registers are playback timers, and only over a
    non-empty sequence. *)
Lemma useEffect_timers (prev next : State) (acts : list Action) (now due : nat)
      (cb : Callback) :
  In (due, cb) (schedule now (useEffect_playSequence prev next acts)) ->
  is_resume cb /\ sequence next <> [].
Proof.
  destruct (useEffect_playSequence_cases prev next acts) as [E | [Hne E]];
    rewrite E; cbn; [contradiction |].
  intros [H | []]. inversion H; subst. split; [exact I | exact Hne].
Qed.

(** ** The player sequence never outgrows the sequence *)

Lemma Inv_init : Inv initialSys.
Proof.
  constructor; cbn.
  - lia.
  - discriminate.
  - contradiction.
Qed.

Lemma Inv_dispatch (y0 : Sys) (now : nat) (acts : list Action) :
  length (playerSequence (commit (state y0) acts))
    <= length (sequence (commit (state y0) acts)) ->
  (gameState (commit (state y0) acts) = playing ->
   length (playerSequence (commit (state y0) acts))
     < length (sequence (commit (state y0) acts))) ->
  (forall due cb, In (due, cb) (timers y0 ++ schedule now acts) -> is_resume cb ->
     sequence (commit (state y0) acts) <> []) ->
  Inv (dispatch y0 now acts).
Proof.
  intros Hle Hlt Hres.
  destruct (dispatch_state y0 now acts) as (Hseq & Hpl & _ & _ & Hgs).
  constructor.
  - now rewrite Hseq, Hpl.
  - rewrite Hseq, Hpl, Hgs. exact Hlt.
  - rewrite Hseq. unfold dispatch. cbn [timers].
    intros due cb Hin Hr. rewrite app_assoc in Hin.
    apply in_app_or in Hin. destruct Hin as [Hin | Hin].
    + now apply (Hres due cb).
    + now apply useEffect_timers in Hin.
Qed.

Lemma app_not_nil (xs : list ColorType) (c : ColorType) : xs ++ [c] <> [].
Proof. destruct xs; discriminate. Qed.

Lemma Inv_step (y : Sys) (e : Event) (y' : Sys) :
  Inv y -> step y e = Some y' -> Inv y'.
Proof.
  intros [Hle Hlt Hres] Hs.
  destruct (step_inv _ _ _ Hs) as (y0 & now & acts & Hh & ->).
  destruct Hh as [t r Hr | t color | r due cb rest Hr Hpop | t].
  - (* startGame *)
    apply Inv_dispatch; cbn; try lia; try discriminate.
  - (* handlePlayerInput *)
    input_paths (state y) color;
      rewrite E; specialize (Hlt Hp) || clear Hlt.
    + apply Inv_dispatch; cbn; auto.
      * intros Hp. contradiction.
      * intros due cb Hin. rewrite app_nil_r in Hin. now apply (Hres due cb).
    + destruct (highScore (state y) <? currentScore (state y));
        (apply Inv_dispatch; cbn;
         [ rewrite length_app; cbn; lia
         | discriminate
         | intros due cb Hin Hcb Hnil; rewrite Hnil in Hlt; cbn in Hlt; lia ]).
    + apply Inv_dispatch; cbn.
      * rewrite Hl. lia.
      * discriminate.
      * intros due cb Hin Hcb Hnil. rewrite Hnil in Hlt. cbn in Hlt. lia.
    + apply Inv_dispatch; cbn.
      * rewrite length_app in *. cbn in *. lia.
      * intros _. rewrite length_app in *. cbn in *. lia.
      * intros due cb Hin Hcb Hnil. rewrite Hnil in Hlt. cbn in Hlt. lia.
  - (* a timer fires *)
    destruct (pop_earliest_In _ _ _ Hpop) as [Hfired Hrest].
    destruct cb as [| | k |]; cbn [run_callback].
    + (* clearActiveButton *)
      apply Inv_dispatch; cbn; auto.
      intros due' cb' Hin. rewrite app_nil_r in Hin.
      apply Hrest in Hin. now apply (Hres due' cb').
    + (* addNewToSequence *)
      apply Inv_dispatch; cbn.
      * rewrite length_app. cbn. lia.
      * intros Hp. specialize (Hlt Hp). rewrite length_app. cbn. lia.
      * intros _ _ _ _. apply app_not_nil.
    + (* playSequence resumes *)
      assert (Hne : sequence (state y) <> []) by (apply (Hres due _ Hfired); exact I).
      destruct (playSequence_resume_effect k (state y))
        as (Hseq & _ & _ & Hturn & _).
      apply Inv_dispatch; cbn [state]; rewrite ?Hseq; auto.
      * destruct Hturn as [[_ ->] | [_ ->]]; [exact Hle | cbn; lia].
      * destruct Hturn as [[-> ->] | [_ ->]]; [exact Hlt |].
        intros _. destruct (sequence (state y)); [congruence | cbn; lia].
    + (* startGame *)
      apply Inv_dispatch; cbn; try lia; try discriminate.
  - (* the sounds are stored *)
    apply Inv_dispatch; cbn; auto.
    intros due cb Hin. rewrite app_nil_r in Hin. now apply (Hres due cb).
Qed.

Lemma reachable_Inv (y : Sys) : reachable y -> Inv y.
Proof.
  induction 1 as [| y e y' _ IH Hs]; [apply Inv_init | now apply (Inv_step y e)].
Qed.

(** C3. In every reachable state of the game, and after every call of
    [handlePlayerInput] made in one, the player sequence is at most as long
    as the sequence. *)
Theorem playerSequence_bounded (y : Sys) :
  reachable y ->
  length (playerSequence (state y)) <= length (sequence (state y))
  /\ (forall color,
        length (playerSequence (commit (state y) (handlePlayerInput (state y) color)))
        <= length (sequence (commit (state y) (handlePlayerInput (state y) color))))
  /\ (forall t color y',
        step y (pressColor t color) = Some y' ->
        length (playerSequence (state y')) <= length (sequence (state y'))).
Proof.
  intros Hr.
  assert (Hstep : forall t color y', step y (pressColor t color) = Some y' ->
                    length (playerSequence (state y')) <= length (sequence (state y'))).
  { intros t color y' Hs.
    apply (inv_le y'), reachable_Inv, (reachable_step y _ y' Hr Hs). }
  split; [apply inv_le, reachable_Inv, Hr | split; [| exact Hstep]].
  intros color.
  pose (y1 := mkSys (state y) 0 []).
  destruct (dispatch_state y1 0 (handlePlayerInput (state y) color))
    as (Hseq & Hpl & _).
  cbn [state y1] in Hseq, Hpl. rewrite <- Hseq, <- Hpl.
  assert (Hi : Inv y1).
  { destruct (reachable_Inv y Hr) as [Hle Hlt _].
    constructor; cbn; auto; try (intros; contradiction). }
  apply (inv_le _ (Inv_step y1 (pressColor 0 color) _ Hi eq_refl)).
Qed.

Lemma run_reachable (es : list Event) :
  forall y y', reachable y -> run y es = Some y' -> reachable y'.
Proof.
  induction es as [|e es IH]; intros y y' Hr H; cbn in H.
  - now inversion H; subst.
  - destruct (step y e) as [y1 |] eqn:Hs; [| discriminate].
    apply (IH y1 y'); [apply (reachable_step y e y1 Hr Hs) | exact H].
Qed.

Lemma playerSequence_bounded_witness :
  length (playerSequence
            (state (dispatch sys_first_turn_sounds 500
                             (handlePlayerInput (state sys_first_turn_sounds)
                                                COLORS.RED))))
  <= length (sequence
               (state (dispatch sys_first_turn_sounds 500
                                (handlePlayerInput (state sys_first_turn_sounds)
                                                   COLORS.RED)))).
Proof.
  refine (proj2 (proj2 (playerSequence_bounded sys_first_turn_sounds _))
                500 COLORS.RED _ eq_refl).
  apply (run_reachable first_round_sounds initialSys);
    [apply reachable_init | vm_compute; reflexivity].
Defined.

(** ** The high score *)

Lemma highScore_step (y : Sys) (e : Event) (y' : Sys) :
  step y e = Some y' ->
  highScore (state y) <= highScore (state y')
  /\ (highScore (state y') <> highScore (state y) ->
      exists t color,
        e = pressColor t color
        /\ gameState (state y) = playing
        /\ index (sequence (state y)) (length (playerSequence (state y))) <> color
        /\ highScore (state y) < currentScore (state y)
        /\ highScore (state y') = currentScore (state y)
        /\ gameState (state y') = gameOver).
Proof.
  intros Hs.
  destruct (step_inv _ _ _ Hs) as (y0 & now & acts & Hh & ->).
  destruct (dispatch_state y0 now acts) as (_ & _ & _ & Hhs & Hgs).
  rewrite Hhs, Hgs. clear Hhs Hgs Hs.
  destruct Hh as [t r Hr | t color | r due cb rest Hr Hpop | t].
  - cbn. split; [lia | congruence].
  - input_paths (state y) color;
      rewrite E; try (cbn; split; [lia | congruence]).
    destruct (Nat.ltb_spec (highScore (state y)) (currentScore (state y))) as [Hlt | Hge];
      cbn; (split; [lia |]); [| congruence].
    intros _. exists t, color. repeat split; auto.
  - destruct cb as [| | k |]; cbn [run_callback state];
      try (cbn; split; [lia | congruence]).
    destruct (playSequence_resume_effect k (state y)) as (_ & _ & -> & _).
    split; [lia | congruence].
  - cbn. split; [lia | congruence].
Qed.

(** C7. The high score never decreases over the lifetime of the component:
    along every run it only grows, and a single step changes it only when it
    is a mismatching input in state [playing] made while the score strictly
    exceeds the old high score, which then becomes the new one. *)
Theorem highScore_monotone (es : list Event) (y y' : Sys) :
  run y es = Some y' ->
  highScore (state y) <= highScore (state y')
  /\ (forall e y1,
        step y e = Some y1 ->
        highScore (state y) <= highScore (state y1)
        /\ (highScore (state y1) <> highScore (state y) ->
            exists t color,
              e = pressColor t color
              /\ gameState (state y) = playing
              /\ index (sequence (state y)) (length (playerSequence (state y))) <> color
              /\ highScore (state y) < currentScore (state y)
              /\ highScore (state y1) = currentScore (state y)
              /\ gameState (state y1) = gameOver)).
Proof.
  intros Hrun. split; [| intros e y1; apply highScore_step].
  revert y Hrun. induction es as [|e es IH]; intros y Hrun; cbn in Hrun.
  - inversion Hrun; subst. lia.
  - destruct (step y e) as [y1 |] eqn:Hs; [| discriminate].
    apply highScore_step in Hs. destruct Hs as [Hle _].
    specialize (IH y1 Hrun). lia.
Qed.

Lemma highScore_monotone_witness :
  highScore (state initialSys) <= highScore (state sys_missed).
Proof.
  refine (proj1 (highScore_monotone
                   (second_round ++ [pressColor 900 COLORS.RED])
                   initialSys sys_missed _)).
  vm_compute. reflexivity.
Defined.

(** ** When the sequence changes *)

(** The timers a handler registers, by handler. *)
Lemma handler_timeouts (y : Sys) (e : Event) (y0 : Sys) (now : nat) (acts : list Action) :
  handler_of y e y0 now acts ->
  forall cb ms, In (cb, ms) (timeouts acts) ->
    cb = clearActiveButton
    \/ is_resume cb
    \/ (cb = callAddNewToSequence /\ ms = 1000
        /\ exists color, e = pressColor now color
           /\ gameState (state y) = playing
           /\ gameState (commit (state y) acts) = watching
           /\ currentScore (commit (state y) acts) = currentScore (state y) + 1).
Proof.
  intros Hh cb ms Hin.
  destruct Hh as [t r Hr | t color | r due cb0 rest Hr Hpop | t].
  - cbn in Hin. contradiction.
  - input_paths (state y) color;
      rewrite E in *.
    + cbn in Hin. contradiction.
    + rewrite !timeouts_app in Hin.
      destruct (highScore (state y) <? currentScore (state y)); cbn in Hin;
        destruct Hin as [H | []]; inversion H; now left.
    + cbn in Hin. destruct Hin as [H | [H | []]]; inversion H; subst cb ms.
      * now left.
      * right. right. repeat split; auto. exists color. repeat split; auto.
    + cbn in Hin. destruct Hin as [H | []]; inversion H; now left.
  - destruct cb0 as [| | k |]; cbn [run_callback] in Hin; cbn in Hin; try contradiction.
    destruct (playSequence_resume_effect k (state y)) as (_ & _ & _ & _ & Hk).
    destruct (Hk cb ms Hin) as [k' ->]. right. left. exact I.
  - cbn in Hin. contradiction.
Qed.

(** No timer ever carries the start handler: it is reached from buttons only. *)
Lemma reachable_timers (y : Sys) :
  reachable y -> forall due cb, In (due, cb) (timers y) -> cb <> callStartGame.
Proof.
  induction 1 as [| y e y' _ IH Hs]; [cbn; contradiction |].
  destruct (step_inv _ _ _ Hs) as (y0 & now & acts & Hh & ->).
  intros due cb Hin. unfold dispatch in Hin. cbn [timers] in Hin.
  apply in_app_or in Hin. destruct Hin as [Hin | Hin].
  - destruct Hh as [t r Hr | t color | r due0 cb0 rest Hr Hpop | t];
      try now apply (IH due).
    cbn [timers] in Hin. apply (pop_earliest_In _ _ _ Hpop) in Hin. now apply (IH due).
  - apply in_app_or in Hin. destruct Hin as [Hin | Hin].
    + apply in_schedule in Hin. destruct Hin as [ms [Hin _]].
      destruct (handler_timeouts _ _ _ _ _ Hh cb ms Hin) as [-> | [Hr | [-> _]]];
        try discriminate.
      destruct cb; try contradiction; discriminate.
    + apply useEffect_timers in Hin. destruct Hin as [Hr _].
      destruct cb; try contradiction; discriminate.
Qed.

(** C6, as the code has it.  Along every execution the sequence is changed
    only by [startGame], which leaves the single freshly drawn symbol in the
    step that sets the state to [watching], and by the [addNewToSequence]
    call of a round-advance timer, which appends one symbol; inputs,
    playback steps, highlight timers and the storing of the loaded sounds
    leave it alone.  A round-advance
    timer is registered only by an input that completes the round, due
    1000 ms later, in the step that takes the state from [playing] to
    [watching]. *)
Theorem sequence_changes_only_by_generation (y : Sys) (e : Event) (y' : Sys) :
  reachable y ->
  step y e = Some y' ->
  (sequence (state y') = sequence (state y)
   \/ (exists t r,
         e = pressStart t r
         /\ sequence (state y') = [nextColor r]
         /\ gameState (state y') = watching)
   \/ (exists r due rest,
         e = timerFires r
         /\ pop_earliest (timers y) = Some ((due, callAddNewToSequence), rest)
         /\ sequence (state y') = sequence (state y) ++ [nextColor r]))
  /\ (forall due,
        In (due, callAddNewToSequence) (timers y') ->
        In (due, callAddNewToSequence) (timers y)
        \/ (exists t color,
              e = pressColor t color
              /\ due = t + 1000
              /\ gameState (state y) = playing
              /\ gameState (state y') = watching
              /\ currentScore (state y') = currentScore (state y) + 1)).
Proof.
  intros Hr Hs.
  destruct (step_inv _ _ _ Hs) as (y0 & now & acts & Hh & ->).
  destruct (dispatch_state y0 now acts) as (Hseq & _ & Hsc & _ & Hgs).
  rewrite Hseq, Hsc, Hgs.
  assert (Hst : state y0 = state y) by (destruct Hh; reflexivity).
  split.
  - destruct Hh as [t r Hrand | t color | r due cb rest Hrand Hpop | t].
    + right. left. exists t, r. repeat split.
    + left.
      input_paths (state y) color;
        rewrite E; try reflexivity.
      destruct (highScore (state y) <? currentScore (state y)); reflexivity.
    + destruct (pop_earliest_In _ _ _ Hpop) as [Hfired _].
      destruct cb as [| | k |]; cbn [run_callback state].
      * now left.
      * right. right. exists r, due, rest. repeat split; auto.
      * left. now destruct (playSequence_resume_effect k (state y)) as (-> & _).
      * now elim (reachable_timers y Hr due callStartGame Hfired).
    + now left.
  - intros due Hin. unfold dispatch in Hin. cbn [timers] in Hin.
    apply in_app_or in Hin. destruct Hin as [Hin | Hin].
    + left. destruct Hh as [t r Hrand | t color | r due0 cb rest Hrand Hpop | t]; auto.
      cbn [timers] in Hin. now apply (pop_earliest_In _ _ _ Hpop) in Hin.
    + apply in_app_or in Hin. destruct Hin as [Hin | Hin].
      * apply in_schedule in Hin. destruct Hin as [ms [Hin ->]].
        destruct (handler_timeouts _ _ _ _ _ Hh _ ms Hin)
          as [E | [[] | (_ & -> & color & -> & Hp & Hw & Hc)]]; [discriminate |].
        right. exists now, color. rewrite Hst. repeat split; auto.
      * apply useEffect_timers in Hin. destruct Hin as [[] _].
Qed.

Lemma sequence_changes_only_by_generation_witness :
  sequence (state sys_extended) = sequence (state sys_second_turn)
  \/ (exists t r,
        timerFires (1 # 2) = pressStart t r
        /\ sequence (state sys_extended) = [nextColor r]
        /\ gameState (state sys_extended) = watching)
  \/ (exists r due rest,
        timerFires (1 # 2) = timerFires r
        /\ pop_earliest (timers sys_second_turn)
           = Some ((due, callAddNewToSequence), rest)
        /\ sequence (state sys_extended)
           = sequence (state sys_second_turn) ++ [nextColor r]).
Proof.
  refine (proj1 (sequence_changes_only_by_generation
                   sys_second_turn (timerFires (1 # 2)) sys_extended _ _)).
  - apply (run_reachable second_round initialSys);
      [apply reachable_init | vm_compute; reflexivity].
  - vm_compute. reflexivity.
Defined.

(** Counterexample to C6 as stated.  The game is started and the one-symbol
    sequence is shown; the player repeats it at 400 ms, which completes the
    round.  The sequence is shown again at once and the turn is back with the
    player at 700 ms, so the round-advance timer of 1400 ms appends a symbol
    while the state is [playing].  The player then enters both symbols; the
    playback of the two symbols is still running when the next round-advance
    timer fires at 2600 ms and appends a symbol while the state is
    [watching]. *)
Lemma sequence_appended_during_round :
  run initialSys second_round = Some sys_second_turn
  /\ gameState (state sys_second_turn) = playing
  /\ sequence (state sys_second_turn) = [COLORS.GREEN]
  /\ step sys_second_turn (timerFires (1 # 2)) = Some sys_extended
  /\ sequence (state sys_extended) = [COLORS.GREEN; COLORS.YELLOW]
  /\ run sys_extended third_round = Some sys_third_showing
  /\ gameState (state sys_third_showing) = watching
  /\ sequence (state sys_third_showing) = [COLORS.GREEN; COLORS.YELLOW]
  /\ step sys_third_showing (timerFires (1 # 4)) = Some sys_third_extended
  /\ sequence (state sys_third_extended)
     = [COLORS.GREEN; COLORS.YELLOW; COLORS.RED].
Proof. vm_compute. repeat split. Qed.

(** * Further properties of the code *)

(** ** A whole turn of the player *)

Lemma index_app_middle (p rest : list ColorType) (c : ColorType) :
  index (p ++ c :: rest) (length p) = c.
Proof.
  unfold index. rewrite app_nth2 by lia. now rewrite Nat.sub_diag.
Qed.

Lemma handlePlayerInput_calls_app (s : State) (xs ys : list ColorType) :
  handlePlayerInput_calls s (xs ++ ys)
  = handlePlayerInput_calls (handlePlayerInput_calls s xs) ys.
Proof. unfold handlePlayerInput_calls. apply fold_left_app. Qed.


(** Repeating a proper prefix of what is left of the sequence keeps the
    turn with the player. *)
Lemma replay_prefix (good : list ColorType) :
  forall (s : State) (rest : list ColorType),
    gameState s = playing ->
    sequence s = playerSequence s ++ good ++ rest ->
    rest <> [] ->
    gameState (handlePlayerInput_calls s good) = playing
    /\ playerSequence (handlePlayerInput_calls s good) = playerSequence s ++ good
    /\ sequence (handlePlayerInput_calls s good) = sequence s
    /\ currentScore (handlePlayerInput_calls s good) = currentScore s
    /\ highScore (handlePlayerInput_calls s good) = highScore s.
Proof.
  induction good as [|c good IH]; intros s rest Hp Hseq Hne.
  - cbn. rewrite app_nil_r. auto.
  - assert (He : index (sequence s) (length (playerSequence s)) = c)
      by (rewrite Hseq; apply index_app_middle).
    assert (Hl : length (playerSequence s ++ [c]) <> length (sequence s)).
    { rewrite Hseq. repeat rewrite length_app. cbn [length].
      repeat rewrite length_app.
      destruct rest; [congruence | cbn [length]; lia]. }
    unfold handlePlayerInput_calls in *. cbn [fold_left].
    rewrite (handlePlayerInput_partial s c Hp He Hl).
    set (s1 := commit s _).
    destruct (IH s1 rest) as (H1 & H2 & H3 & H4 & H5); subst s1; cbn; auto.
    + rewrite Hseq. now rewrite <- app_assoc.
    + cbn in H2, H3, H4, H5. rewrite H2, <- app_assoc. auto.
Qed.

(** X1. An input in state [playing] that matches the sequence but does not
    complete it keeps the turn open: the state stays [playing], the player
    sequence grows by the input, and sequence, score and high score are
    untouched; the only timer registered clears the highlight of the press. *)
Theorem input_keeps_round_open (s : State) (color : ColorType) :
  gameState s = playing ->
  index (sequence s) (length (playerSequence s)) = color ->
  length (playerSequence s ++ [color]) <> length (sequence s) ->
  gameState (commit s (handlePlayerInput s color)) = playing
  /\ playerSequence (commit s (handlePlayerInput s color)) = playerSequence s ++ [color]
  /\ sequence (commit s (handlePlayerInput s color)) = sequence s
  /\ currentScore (commit s (handlePlayerInput s color)) = currentScore s
  /\ highScore (commit s (handlePlayerInput s color)) = highScore s
  /\ timeouts (handlePlayerInput s color) = [(clearActiveButton, 150)]
  /\ (forall title message buttons,
        ~ In (Alert_alert title message buttons) (handlePlayerInput s color)).
Proof.
  intros Hp He Hl. rewrite (handlePlayerInput_partial s color Hp He Hl).
  cbn. repeat split; auto.
  intros title message buttons H.
  repeat (destruct H as [H | H]; [discriminate |]). exact H.
Qed.

Lemma input_keeps_round_open_witness :
  gameState (commit turn_of_three (handlePlayerInput turn_of_three COLORS.GREEN))
  = playing
  /\ playerSequence (commit turn_of_three (handlePlayerInput turn_of_three COLORS.GREEN))
     = [COLORS.GREEN].
Proof.
  destruct (input_keeps_round_open turn_of_three COLORS.GREEN) as (H1 & H2 & _).
  - reflexivity.
  - reflexivity.
  - discriminate.
  - split; [exact H1 | exact H2].
Defined.

(** X2. Repeating, in order, everything that is left of the sequence
    completes the round: the state is [watching] afterwards, the score has
    grown by exactly 1 over the whole turn, the player sequence equals the
    sequence, and sequence and high score are unchanged. *)
Theorem correct_replay_completes_round (s : State) (rest : list ColorType) :
  gameState s = playing ->
  sequence s = playerSequence s ++ rest ->
  rest <> [] ->
  gameState (handlePlayerInput_calls s rest) = watching
  /\ currentScore (handlePlayerInput_calls s rest) = currentScore s + 1
  /\ playerSequence (handlePlayerInput_calls s rest) = sequence s
  /\ sequence (handlePlayerInput_calls s rest) = sequence s
  /\ highScore (handlePlayerInput_calls s rest) = highScore s.
Proof.
  intros Hp Hseq Hne.
  destruct (exists_last Hne) as (good & c & ->).
  rewrite handlePlayerInput_calls_app.
  destruct (replay_prefix good s [c] Hp Hseq) as (G1 & G2 & G3 & G4 & G5);
    [discriminate |].
  set (s1 := handlePlayerInput_calls s good) in *.
  assert (He : index (sequence s1) (length (playerSequence s1)) = c).
  { rewrite G3, G2, Hseq, app_assoc.
    replace (length (playerSequence s ++ good))
      with (length (playerSequence s ++ good) + 0) by lia.
    unfold index. rewrite app_nth2_plus. reflexivity. }
  assert (Hl : length (playerSequence s1 ++ [c]) = length (sequence s1)).
  { rewrite G3, G2, Hseq. now rewrite app_assoc. }
  change (handlePlayerInput_calls s1 [c]) with (commit s1 (handlePlayerInput s1 c)).
  rewrite (handlePlayerInput_complete s1 c G1 He Hl). cbn.
  rewrite G2, G3, G4, G5, Hseq, app_assoc. auto.
Qed.

Lemma correct_replay_completes_round_witness :
  gameState (handlePlayerInput_calls turn_of_three
               [COLORS.GREEN; COLORS.RED; COLORS.BLUE]) = watching
  /\ currentScore (handlePlayerInput_calls turn_of_three
                     [COLORS.GREEN; COLORS.RED; COLORS.BLUE]) = 3.
Proof.
  destruct (correct_replay_completes_round turn_of_three
              [COLORS.GREEN; COLORS.RED; COLORS.BLUE]) as (H1 & H2 & _).
  - reflexivity.
  - reflexivity.
  - discriminate.
  - split; [exact H1 | exact H2].
Defined.



(** ** Drawing a colour *)

Lemma Qfloor_between (x : Q) (k : Z) :
  (inject_Z k <= x)%Q -> (x < inject_Z (k + 1))%Q -> Qfloor x = k.
Proof.
  intros Hle Hlt.
  assert (H1 : (k <= Qfloor x)%Z).
  { rewrite <- (Qfloor_Z k). now apply Qfloor_resp_le. }
  assert (H2 : (Qfloor x < k + 1)%Z).
  { rewrite Zlt_Qlt. apply Qle_lt_trans with (y := x); [apply Qfloor_le | exact Hlt]. }
  lia.
Qed.

(** X5. [addNewToSequence] gives each colour a quarter of the range of
    [Math.random()]: a draw [r] with [k/4 <= r < (k+1)/4], for [k] from 0 to
    3, appends the [k]-th colour of green, red, yellow, blue. *)
Theorem nextColor_quarters (r : Q) (k : nat) :
  k < 4 ->
  (inject_Z (Z.of_nat k) / 4 <= r)%Q ->
  (r < inject_Z (Z.of_nat k + 1) / 4)%Q ->
  nextColor r = index colorsArray k
  /\ forall s, sequence (commit s (addNewToSequence r))
               = sequence s ++ [index colorsArray k].
Proof.
  intros Hk Hle Hlt.
  assert (E : nextColor r = index colorsArray k).
  { unfold nextColor. change (Z.of_nat (length colorsArray)) with 4%Z.
    rewrite (Qfloor_between (r * inject_Z 4) (Z.of_nat k)).
    - unfold array_get.
      destruct (Z.ltb_spec (Z.of_nat k) 0); [lia |]. now rewrite Nat2Z.id.
    - apply (Qmult_le_r _ _ 4) in Hle; [| reflexivity].
      unfold Qdiv in Hle.
      rewrite <- Qmult_assoc, (Qmult_comm (/ 4)), Qmult_inv_r, Qmult_1_r in Hle
        by discriminate.
      exact Hle.
    - apply (Qmult_lt_r _ _ 4) in Hlt; [| reflexivity].
      unfold Qdiv in Hlt.
      rewrite <- Qmult_assoc, (Qmult_comm (/ 4)), Qmult_inv_r, Qmult_1_r in Hlt
        by discriminate.
      exact Hlt. }
  split; [exact E |]. intros s. cbn. now rewrite E.
Qed.

Lemma nextColor_quarters_witness :
  nextColor (5 # 8) = COLORS.YELLOW.
Proof.
  refine (proj1 (nextColor_quarters (5 # 8) 2 _ _ _)).
  - lia.
  - vm_compute. discriminate.
  - vm_compute. reflexivity.
Defined.

(** ** How long a playback takes, and how it ends *)

Lemma plan_duration_closed (seq : list ColorType) :
  seq <> [] ->
  plan_duration (build_playback_plan seq) + (SEQUENCE_DELAY - HIGHLIGHT_DURATION)
  = SEQUENCE_DELAY * length seq.
Proof.
  induction seq as [|c seq IH]; intros Hne; [congruence |].
  destruct seq as [|c' seq].
  - reflexivity.
  - assert (Hne' : c' :: seq <> []) by discriminate.
    specialize (IH Hne').
    cbn [build_playback_plan plan_duration highlight_on_duration gap_after_duration]
      in *.
    cbn [length] in *. unfold SEQUENCE_DELAY, HIGHLIGHT_DURATION in *. lia.
Qed.

Lemma plan_timeline_within (plan : list PlaybackStep) :
  forall t, Forall (fun e => fst e <= t + plan_duration plan) (plan_timeline t plan).
Proof.
  induction plan as [|p plan IH]; intros t; cbn [plan_timeline plan_duration].
  - constructor.
  - repeat constructor; cbn [fst]; try lia.
    eapply Forall_impl; [| apply IH]. cbn beta. intros e He. lia.
Qed.

Lemma plan_timeline_length (plan : list PlaybackStep) :
  forall t, length (plan_timeline t plan) = 3 * length plan.
Proof.
  induction plan as [|p plan IH]; intros t; cbn [plan_timeline length];
    [reflexivity | rewrite IH; lia].
Qed.

Lemma build_playback_plan_length (seq : list ColorType) :
  length (build_playback_plan seq) = length seq.
Proof. induction seq as [|c seq IH]; cbn [build_playback_plan length]; congruence. Qed.

(** X6. A playback of [n >= 1] symbols that starts in state [watching] hands
    the turn to the player exactly [800 * n - 500] ms after it started: that
    is when it sets the state to [playing] and empties the player sequence,
    as its last two actions, after three actions per symbol, none of them
    later than the hand-over. *)
Theorem playback_hands_over_on_time (s : State) (fuel : nat) :
  gameState s = watching ->
  sequence s <> [] ->
  5 * length (sequence s) + 3 <= fuel ->
  exists shown,
    timeline fuel 0 (playSequence s)
    = Some (shown
            ++ [(SEQUENCE_DELAY * length (sequence s)
                 - (SEQUENCE_DELAY - HIGHLIGHT_DURATION), setGameState playing);
                (SEQUENCE_DELAY * length (sequence s)
                 - (SEQUENCE_DELAY - HIGHLIGHT_DURATION), setPlayerSequence [])])
    /\ length shown = 3 * length (sequence s)
    /\ Forall (fun e => fst e <= SEQUENCE_DELAY * length (sequence s)
                                 - (SEQUENCE_DELAY - HIGHLIGHT_DURATION)) shown.
Proof.
  intros Hg Hne Hfuel.
  assert (Hlen : 0 < length (sequence s))
    by (destruct (sequence s); [congruence | simpl; lia]).
  pose proof (plan_duration_closed (sequence s) Hne) as Hd.
  replace (SEQUENCE_DELAY * length (sequence s) - (SEQUENCE_DELAY - HIGHLIGHT_DURATION))
    with (plan_duration (build_playback_plan (sequence s))) by lia.
  exists (plan_timeline 0 (build_playback_plan (sequence s))).
  split; [| split].
  - unfold playSequence. rewrite Hg. cbn [GameState_eqb negb orb].
    destruct (Nat.eqb_spec (length (sequence s)) 0) as [? | _]; [lia |].
    rewrite (timeline_playSequence_loop (sequence s) (length (sequence s) - 1) 0 0 fuel)
      by lia.
    reflexivity.
  - now rewrite plan_timeline_length, build_playback_plan_length.
  - apply (plan_timeline_within (build_playback_plan (sequence s)) 0).
Qed.

Lemma playback_hands_over_on_time_witness :
  exists shown,
    timeline 20 0 (playSequence showing_three)
    = Some (shown ++ [(1900, setGameState playing); (1900, setPlayerSequence [])])
    /\ length shown = 9
    /\ Forall (fun e => fst e <= 1900) shown.
Proof.
  refine (playback_hands_over_on_time showing_three 20 eq_refl _ _).
  - discriminate.
  - simpl. lia.
Defined.

(** X7. A playback looks at the game state only when it starts.  When its
    last highlight timer fires it clears the highlight, sets the state to
    [playing] and empties the player sequence whatever the state has become
    in the meantime: a game that was lost or restarted while the playback ran
    is put into [playing], and inputs already made in [playing] are dropped.
    Sequence, score and high score are not touched and no timer is
    registered. *)
Theorem playback_end_ignores_state (k : Playback) (s : State) :
  pb_phase k = highlightWait ->
  length (pb_sequence k) <= S (pb_i k) ->
  playSequence_resume k
  = [setActiveButton None; setGameState playing; setPlayerSequence []]
  /\ commit s (playSequence_resume k)
     = mkState (sequence s) [] (currentScore s) (highScore s) playing None.
Proof.
  intros Hph Hlast. destruct k as [seq i ph]. cbn in Hph, Hlast. subst ph.
  unfold playSequence_resume, playSequence_loop.
  cbn [pb_sequence pb_i pb_phase].
  destruct (Nat.ltb_spec i (length seq - 1)) as [? | _]; [lia |].
  destruct (Nat.ltb_spec (S i) (length seq)) as [? | _]; [lia |].
  split; reflexivity.
Qed.

Lemma playback_end_ignores_state_witness :
  commit lost_game
         (playSequence_resume
            (mkPlayback [COLORS.RED; COLORS.RED; COLORS.BLUE] 2 highlightWait))
  = mkState [COLORS.RED; COLORS.RED; COLORS.BLUE] [] 7 9 playing None.
Proof.
  refine (proj2 (playback_end_ignores_state
                   (mkPlayback [COLORS.RED; COLORS.RED; COLORS.BLUE] 2 highlightWait)
                   lost_game eq_refl _)).
  simpl. lia.
Defined.

(** ** When the effect starts a playback *)

Lemma useEffect_starts (prev next : State) (acts : list Action) :
  deps_changed prev next acts = true ->
  gameState next = watching ->
  sequence next <> [] ->
  useEffect_playSequence prev next acts
  = [setActiveButton (Some (index (sequence next) 0));
     playSound (index (sequence next) 0);
     setTimeout (resumePlaySequence (mkPlayback (sequence next) 0 highlightWait))
                HIGHLIGHT_DURATION].
Proof.
  intros Hd Hg Hne.
  unfold useEffect_playSequence, playSequence, playSequence_loop.
  rewrite Hd, Hg. cbn [GameState_eqb andb negb orb].
  destruct (sequence next) as [|c rest]; [congruence | reflexivity].
Qed.

Lemma useEffect_rests (prev next : State) (acts : list Action) :
  gameState next <> watching ->
  useEffect_playSequence prev next acts = [].
Proof.
  intros Hg. unfold useEffect_playSequence.
  destruct (deps_changed prev next acts); [| reflexivity].
  destruct (GameState_eqb_spec (gameState next) watching); [contradiction | reflexivity].
Qed.

Lemma step_timerFires (y : Sys) (r : Q) (due : nat) (cb : Callback)
      (rest : list (nat * Callback)) (y' : Sys) :
  pop_earliest (timers y) = Some ((due, cb), rest) ->
  step y (timerFires r) = Some y' ->
  y' = dispatch (mkSys (state y) (clock y) rest) due (run_callback cb r).
Proof.
  intros Hp. cbn [step]. rewrite Hp.
  destruct (random_ok r); intros H; now inversion H.
Qed.

(** X8. Completing a round starts a playback in the same step, over the
    sequence as it is: the move to [watching] makes the effect run while the
    new symbol is still a second away.  The first symbol of the old sequence
    is highlighted at once, and the timers registered are the highlight of the
    press (150 ms), the round advance (1000 ms) and the first highlight of
    that playback (300 ms). *)
Theorem round_complete_replays_sequence (y : Sys) (t : nat) (color : ColorType) (y' : Sys) :
  gameState (state y) = playing ->
  index (sequence (state y)) (length (playerSequence (state y))) = color ->
  length (playerSequence (state y) ++ [color]) = length (sequence (state y)) ->
  step y (pressColor t color) = Some y' ->
  timers y'
  = timers y
    ++ [(t + 150, clearActiveButton);
        (t + 1000, callAddNewToSequence);
        (t + HIGHLIGHT_DURATION,
         resumePlaySequence (mkPlayback (sequence (state y)) 0 highlightWait))]
  /\ activeButton (state y') = Some (index (sequence (state y)) 0)
  /\ sequence (state y') = sequence (state y).
Proof.
  intros Hp He Hl Hs. apply step_pressColor in Hs. subst y'.
  unfold dispatch. rewrite (handlePlayerInput_complete _ _ Hp He Hl).
  set (acts := [playSound color; _; _; _; _; _; _]).
  assert (Hne : sequence (commit (state y) acts) <> []).
  { cbn. intros E. rewrite E in Hl. rewrite length_app in Hl. cbn in Hl. lia. }
  rewrite (useEffect_starts (state y) (commit (state y) acts) acts);
    [| unfold deps_changed; rewrite Hp; reflexivity | reflexivity | exact Hne].
  cbn. repeat split.
Qed.

Lemma round_complete_replays_sequence_witness :
  timers (dispatch sys_first_turn 400
                   (handlePlayerInput (state sys_first_turn) COLORS.GREEN))
  = [(550, clearActiveButton); (1400, callAddNewToSequence);
     (700, resumePlaySequence (mkPlayback [COLORS.GREEN] 0 highlightWait))].
Proof.
  exact (proj1 (round_complete_replays_sequence sys_first_turn 400 COLORS.GREEN _
                  eq_refl eq_refl eq_refl eq_refl)).
Defined.

(** X9. A press on a start button shows the new one-symbol sequence right
    away: the drawn symbol is highlighted in the same step and a single timer
    is registered, 300 ms ahead; when that timer fires the playback is over
    and the state becomes [playing] with an empty player sequence. *)
Theorem start_press_shows_symbol (y : Sys) (t : nat) (r : Q) (y' : Sys) :
  step y (pressStart t r) = Some y' ->
  timers y'
  = timers y
    ++ [(t + HIGHLIGHT_DURATION,
         resumePlaySequence (mkPlayback [nextColor r] 0 highlightWait))]
  /\ activeButton (state y') = Some (nextColor r)
  /\ gameState (state y') = watching
  /\ (forall s r',
        commit s (run_callback
                    (resumePlaySequence (mkPlayback [nextColor r] 0 highlightWait)) r')
        = mkState (sequence s) [] (currentScore s) (highScore s) playing None).
Proof.
  cbn [step]. destruct (on_time y t && random_ok r); [| discriminate].
  intros H. inversion H; subst y'. clear H.
  unfold dispatch.
  rewrite (useEffect_starts (state y) (commit (state y) (startGame r)) (startGame r));
    [| reflexivity | reflexivity | discriminate].
  cbn. repeat split.
Qed.

Lemma start_press_shows_symbol_witness :
  timers (dispatch initialSys 0 (startGame (1 # 4)))
  = [(300, resumePlaySequence (mkPlayback [COLORS.RED] 0 highlightWait))].
Proof.
  exact (proj1 (start_press_shows_symbol initialSys 0 (1 # 4) _ eq_refl)).
Defined.

(** X10. What the round-advance timer does depends on the state it finds.
    In [watching] the appended symbol starts a playback of the extended
    sequence, next to any playback still running.  In every other state the
    symbol is appended silently: nothing is highlighted, no timer is
    registered and the state stays what it was, so a player whose turn has
    already begun is never shown the new symbol. *)
Theorem round_advance_timer (y : Sys) (r : Q) (due : nat)
        (rest : list (nat * Callback)) (y' : Sys) :
  pop_earliest (timers y) = Some ((due, callAddNewToSequence), rest) ->
  step y (timerFires r) = Some y' ->
  sequence (state y') = sequence (state y) ++ [nextColor r]
  /\ gameState (state y') = gameState (state y)
  /\ (gameState (state y) = watching ->
      timers y'
      = rest ++ [(due + HIGHLIGHT_DURATION,
                  resumePlaySequence
                    (mkPlayback (sequence (state y) ++ [nextColor r]) 0 highlightWait))]
      /\ activeButton (state y')
         = Some (index (sequence (state y) ++ [nextColor r]) 0))
  /\ (gameState (state y) <> watching ->
      timers y' = rest
      /\ activeButton (state y') = activeButton (state y)
      /\ playerSequence (state y') = playerSequence (state y)).
Proof.
  intros Hp Hs. rewrite (step_timerFires _ _ _ _ _ _ Hp Hs).
  cbn [run_callback]. unfold dispatch. cbn [state timers].
  set (s1 := commit (state y) (addNewToSequence r)).
  assert (Hseq : sequence s1 = sequence (state y) ++ [nextColor r]) by reflexivity.
  assert (Hgs : gameState s1 = gameState (state y)) by reflexivity.
  destruct (useEffect_frame (state y) s1 (addNewToSequence r)) as (F1 & _ & _ & _ & F5).
  split; [now rewrite F1 | split; [now rewrite F5 |]].
  split.
  - intros Hw.
    rewrite (useEffect_starts (state y) s1 (addNewToSequence r));
      [| reflexivity | now rewrite Hgs | rewrite Hseq; apply app_not_nil].
    cbn. split; reflexivity.
  - intros Hn.
    rewrite (useEffect_rests (state y) s1 (addNewToSequence r)) by now rewrite Hgs.
    cbn. rewrite app_nil_r. repeat split.
Qed.

Lemma round_advance_timer_witness :
  timers sys_extended = []
  /\ activeButton (state sys_extended) = activeButton (state sys_second_turn)
  /\ playerSequence (state sys_extended) = playerSequence (state sys_second_turn).
Proof.
  refine (proj2 (proj2 (proj2 (round_advance_timer sys_second_turn (1 # 2) 1400 []
                                 sys_extended eq_refl _))) _).
  - vm_compute. reflexivity.
  - discriminate.
Defined.

(** X11. The timer that ends the highlight of a press only clears the
    highlighted button: the rest of the state is as before, no playback is
    started and no timer is registered, in whatever state it fires. *)
Theorem highlight_timer_only_clears (y : Sys) (r : Q) (due : nat)
        (rest : list (nat * Callback)) (y' : Sys) :
  pop_earliest (timers y) = Some ((due, clearActiveButton), rest) ->
  step y (timerFires r) = Some y' ->
  state y'
  = mkState (sequence (state y)) (playerSequence (state y)) (currentScore (state y))
            (highScore (state y)) (gameState (state y)) None
  /\ timers y' = rest
  /\ clock y' = due.
Proof.
  intros Hp Hs. rewrite (step_timerFires _ _ _ _ _ _ Hp Hs).
  cbn [run_callback]. unfold dispatch, useEffect_playSequence, deps_changed.
  cbn. rewrite GameState_eqb_refl. cbn. now rewrite app_nil_r.
Qed.

Lemma highlight_timer_only_clears_witness :
  timers (dispatch (mkSys (state sys_missed) (clock sys_missed)
                          [(1400, callAddNewToSequence)])
                   1050 (run_callback clearActiveButton 0))
  = [(1400, callAddNewToSequence)].
Proof.
  exact (proj1 (proj2 (highlight_timer_only_clears sys_missed 0 1050
                         [(1400, callAddNewToSequence)] _ eq_refl eq_refl))).
Defined.

(** X4. Every input accepted in state [playing], whichever path it then
    takes, first plays the sound of the pressed colour, registers the timer
    that clears the highlight after half the highlight duration (150 ms) and
    is recorded at the end of the player sequence, a wrong input included.
    After the step the pressed colour is the highlighted button on the
    mismatch path and on the incomplete path; on the round-complete path the
    playback that the same step starts highlights the first symbol of the
    sequence instead. *)
Theorem accepted_input_highlights (y : Sys) (t : nat) (color : ColorType) (y' : Sys) :
  gameState (state y) = playing ->
  step y (pressColor t color) = Some y' ->
  hd_error (handlePlayerInput (state y) color) = Some (playSound color)
  /\ In (t + HIGHLIGHT_DURATION / 2, clearActiveButton) (timers y')
  /\ playerSequence (state y') = playerSequence (state y) ++ [color]
  /\ (index (sequence (state y)) (length (playerSequence (state y))) <> color
      \/ length (playerSequence (state y) ++ [color]) <> length (sequence (state y)) ->
      activeButton (state y') = Some color)
  /\ (index (sequence (state y)) (length (playerSequence (state y))) = color ->
      length (playerSequence (state y) ++ [color]) = length (sequence (state y)) ->
      activeButton (state y') = Some (index (sequence (state y)) 0)).
Proof.
  intros Hplaying Hs. apply step_pressColor in Hs. subst y'.
  unfold dispatch. cbn [state timers].
  destruct (handlePlayerInput_cases (state y) color)
    as [[Hn E] | [(Hp & Hne & E) | [(Hp & He & Hl & E) | (Hp & He & Hl & E)]]];
    [contradiction | | |]; rewrite E.
  - (* mismatch *)
    destruct (highScore (state y) <? currentScore (state y));
      (rewrite useEffect_rests by (cbn; discriminate));
      cbn; rewrite ?app_nil_r; repeat split; auto;
      try (apply in_or_app; right; cbn; auto);
      intros He Hl; contradiction.
  - (* round complete *)
    set (acts := [playSound color; _; _; _; _; _; _]).
    assert (Hne : sequence (commit (state y) acts) <> []).
    { cbn. intros E0. rewrite E0 in Hl. rewrite length_app in Hl. cbn in Hl. lia. }
    rewrite (useEffect_starts (state y) (commit (state y) acts) acts);
      [| unfold deps_changed; rewrite Hp; reflexivity | reflexivity | exact Hne].
    cbn. repeat split; auto.
    + apply in_or_app. right. cbn. auto.
    + intros [Hd | Hd]; contradiction.
  - (* round still open *)
    rewrite useEffect_rests by (cbn; rewrite Hp; discriminate).
    cbn. rewrite ?app_nil_r. repeat split; auto.
    + apply in_or_app. right. cbn. auto.
    + intros _ Hl'. contradiction.
Qed.

Lemma accepted_input_highlights_witness :
  activeButton
    (state (dispatch sys_last_input 600
                     (handlePlayerInput (state sys_last_input) COLORS.RED)))
  = Some COLORS.GREEN
  /\ In (750, clearActiveButton)
        (timers (dispatch sys_last_input 600
                          (handlePlayerInput (state sys_last_input) COLORS.RED))).
Proof.
  destruct (accepted_input_highlights sys_last_input 600 COLORS.RED _ eq_refl eq_refl)
    as (_ & H2 & _ & _ & H5).
  split; [exact (H5 eq_refl eq_refl) | exact H2].
Defined.

(** X22. When [loadSounds] stores its table, [playSound] and with it
    [playSequence] are created anew and the effect runs again.  In state
    [watching] with a sequence to show this starts one more playback of the
    sequence, next to the one already running: its first symbol is
    highlighted and one timer is registered 300 ms ahead.  In every other
    state nothing but the clock changes.  The game state, the sequence, the
    player sequence and the two scores are never touched. *)
Theorem sounds_loaded_reruns_effect (y : Sys) (t : nat) (y' : Sys) :
  step y (soundsLoaded t) = Some y' ->
  (gameState (state y) = watching ->
   sequence (state y) <> [] ->
   timers y'
   = timers y
     ++ [(t + HIGHLIGHT_DURATION,
          resumePlaySequence (mkPlayback (sequence (state y)) 0 highlightWait))]
   /\ activeButton (state y') = Some (index (sequence (state y)) 0))
  /\ (gameState (state y) <> watching ->
      state y' = state y /\ timers y' = timers y)
  /\ sequence (state y') = sequence (state y)
  /\ playerSequence (state y') = playerSequence (state y)
  /\ currentScore (state y') = currentScore (state y)
  /\ highScore (state y') = highScore (state y)
  /\ gameState (state y') = gameState (state y)
  /\ clock y' = t.
Proof.
  cbn [step]. destruct (on_time y t); [| discriminate].
  intros H. inversion H; subst y'. clear H.
  destruct (dispatch_state y t [setSoundObjects]) as (H1 & H2 & H3 & H4 & H5).
  cbn in H1, H2, H3, H4, H5.
  split; [| split; [| repeat split; auto]].
  - intros Hw Hne. unfold dispatch.
    rewrite (useEffect_starts (state y) (commit (state y) [setSoundObjects])
               [setSoundObjects]); [| reflexivity | exact Hw | exact Hne].
    cbn. split; reflexivity.
  - intros Hn. unfold dispatch.
    rewrite useEffect_rests by exact Hn. cbn. now rewrite app_nil_r.
Qed.

Lemma sounds_loaded_reruns_effect_witness :
  timers (dispatch sys_started 100 [setSoundObjects])
  = [(300, resumePlaySequence (mkPlayback [COLORS.GREEN] 0 highlightWait));
     (400, resumePlaySequence (mkPlayback [COLORS.GREEN] 0 highlightWait))].
Proof.
  refine (proj1 (proj1 (sounds_loaded_reruns_effect sys_started 100 _ eq_refl)
                       eq_refl _)).
  discriminate.
Defined.

(** ** What holds in every reachable state *)

Lemma dispatch_nil (y : Sys) (now : nat) :
  dispatch y now [] = mkSys (state y) now (timers y).
Proof.
  unfold dispatch, useEffect_playSequence, deps_changed. cbn.
  rewrite GameState_eqb_refl. cbn. now rewrite app_nil_r.
Qed.

(** The sequence a handler leaves: the old one, a fresh one-symbol sequence,
    or the old one with a symbol appended. *)
Lemma handler_sequence (y : Sys) (e : Event) (y0 : Sys) (now : nat) (acts : list Action) :
  handler_of y e y0 now acts ->
  sequence (commit (state y0) acts) = sequence (state y)
  \/ exists r, random_ok r = true
               /\ (sequence (commit (state y0) acts) = [nextColor r]
                   \/ sequence (commit (state y0) acts)
                      = sequence (state y) ++ [nextColor r]).
Proof.
  intros Hh. destruct Hh as [t r Hr | t color | r due cb rest Hr Hpop | t].
  - right. exists r. split; [exact Hr | now left].
  - left. input_paths (state y) color; rewrite E; try reflexivity.
    destruct (highScore (state y) <? currentScore (state y)); reflexivity.
  - destruct cb as [| | k |]; cbn [run_callback state].
    + now left.
    + right. exists r. split; [exact Hr | now right].
    + left. now destruct (playSequence_resume_effect k (state y)) as (-> & _).
    + right. exists r. split; [exact Hr | now left].
  - now left.
Qed.

(** X12. In every reachable state the sequence consists of symbols of the
    alphabet green, red, yellow, blue: no [undefined] and no other string
    ever gets into it. *)
Theorem sequence_in_alphabet (y : Sys) :
  reachable y ->
  Forall (fun c => In c colorsArray) (sequence (state y))
  /\ ~ In undefined (sequence (state y)).
Proof.
  intros Hr.
  assert (H : Forall (fun c => In c colorsArray) (sequence (state y))).
  { induction Hr as [| y e y' _ IH Hs]; [constructor |].
    destruct (step_inv _ _ _ Hs) as (y0 & now & acts & Hh & ->).
    destruct (dispatch_state y0 now acts) as (-> & _).
    destruct (handler_sequence _ _ _ _ _ Hh) as [-> | (r & Hrand & [-> | ->])].
    - exact IH.
    - constructor; [now apply nextColor_in_alphabet | constructor].
    - apply Forall_app. split; [exact IH |].
      constructor; [now apply nextColor_in_alphabet | constructor]. }
  split; [exact H |].
  intros Hin. rewrite Forall_forall in H. specialize (H _ Hin).
  cbn in H. repeat (destruct H as [H | H]; [discriminate |]). exact H.
Qed.

Lemma sequence_in_alphabet_witness :
  Forall (fun c => In c colorsArray) (sequence (state sys_third_extended)).
Proof.
  refine (proj1 (sequence_in_alphabet sys_third_extended _)).
  apply (run_reachable (second_round ++ timerFires (1 # 2) :: third_round
                        ++ [timerFires (1 # 4)]) initialSys);
    [apply reachable_init | vm_compute; reflexivity].
Defined.

(** The game state a handler leaves is the old one or one of [watching],
    [playing], [gameOver]; and if it is [idle] the handler did nothing at
    all. *)
Lemma handler_idle (y : Sys) (e : Event) (y0 : Sys) (now : nat) (acts : list Action) :
  handler_of y e y0 now acts ->
  gameState (commit (state y0) acts) = idle ->
  gameState (state y) = idle
  /\ ((exists t color, e = pressColor t color /\ acts = [] /\ y0 = y)
      \/ (exists r due cb rest,
            e = timerFires r /\ pop_earliest (timers y) = Some ((due, cb), rest))
      \/ (exists t, e = soundsLoaded t /\ acts = [setSoundObjects] /\ y0 = y)).
Proof.
  intros Hh. destruct Hh as [t r Hr | t color | r due cb rest Hr Hpop | t].
  - cbn. discriminate.
  - input_paths (state y) color; rewrite E.
    + cbn. intros Hi. split; [exact Hi | left; eauto].
    + destruct (highScore (state y) <? currentScore (state y)); cbn; discriminate.
    + cbn. discriminate.
    + cbn. congruence.
  - intros Hi. split; [| right; left; eauto 6].
    destruct cb as [| | k |]; cbn [run_callback state] in Hi; try exact Hi;
      try (cbn in Hi; discriminate).
    destruct (playSequence_resume_effect k (state y))
      as (_ & _ & _ & [[Hg _] | [Hg _]] & _); congruence.
  - cbn. intros Hi. split; [exact Hi | right; right; eauto].
Qed.

(** Outside [watching] the storing of the sounds starts no playback. *)
Lemma dispatch_sounds_rests (y : Sys) (now : nat) :
  gameState (state y) <> watching ->
  dispatch y now [setSoundObjects] = mkSys (state y) now (timers y).
Proof.
  intros Hn. unfold dispatch.
  rewrite useEffect_rests by exact Hn. cbn. now rewrite app_nil_r.
Qed.

(** A step that ends in [idle] started there, and did nothing if no timer
    was pending. *)
Lemma step_to_idle (y : Sys) (e : Event) (y' : Sys) :
  step y e = Some y' ->
  gameState (state y') = idle ->
  gameState (state y) = idle
  /\ (timers y = [] -> state y' = state y /\ timers y' = timers y).
Proof.
  intros Hs Hi.
  destruct (step_inv _ _ _ Hs) as (y0 & now & acts & Hh & ->).
  destruct (dispatch_state y0 now acts) as (_ & _ & _ & _ & Hg).
  rewrite Hg in Hi.
  destruct (handler_idle _ _ _ _ _ Hh Hi)
    as [Hz [(t & color & -> & -> & ->)
           | [(r & due & cb & rest & -> & Hpop) | (t & -> & -> & ->)]]].
  - split; [exact Hz |]. intros _. now rewrite dispatch_nil.
  - split; [exact Hz |]. intros Hnil. rewrite Hnil in Hpop. discriminate.
  - split; [exact Hz |]. intros _.
    rewrite dispatch_sounds_rests by (rewrite Hz; discriminate). auto.
Qed.

Lemma reachable_idle (y : Sys) :
  reachable y -> gameState (state y) = idle ->
  state y = initialState /\ timers y = [].
Proof.
  induction 1 as [| y e y' Hr IH Hs]; [auto |].
  intros Hi. destruct (step_to_idle y e y' Hs Hi) as [Hy Hsame].
  destruct (IH Hy) as [E1 E2]. destruct (Hsame E2) as [-> ->]. auto.
Qed.

(** X13. The idle screen belongs to the time before the first game only.
    While the state is [idle] the game state (sequence, player sequence,
    score, high score and highlighted button; the table of sounds is not
    part of it and may have been stored meanwhile) is exactly as it was
    mounted, with no timer pending; no step ever leads back to [idle]; and
    once a game has been started the sequence is never empty again. *)
Theorem idle_only_before_first_game (y : Sys) :
  reachable y ->
  (gameState (state y) = idle -> state y = initialState /\ timers y = [])
  /\ (gameState (state y) <> idle -> sequence (state y) <> [])
  /\ (forall e y', step y e = Some y' ->
        gameState (state y') = idle -> gameState (state y) = idle).
Proof.
  intros Hr. split; [now apply reachable_idle | split].
  - induction Hr as [| y e y' Hr IH Hs]; [cbn; congruence |].
    intros Hn.
    destruct (step_inv _ _ _ Hs) as (y0 & now & acts & Hh & ->).
    destruct (dispatch_state y0 now acts) as (Hseq & _ & _ & _ & Hg).
    rewrite Hseq. rewrite Hg in Hn.
    destruct (handler_sequence _ _ _ _ _ Hh) as [E | (r & _ & [E | E])]; rewrite E.
    + apply IH. intros Hi.
      destruct (reachable_idle y Hr Hi) as [Hst Htm].
      destruct Hh as [t r Hrand | t color | r due cb rest Hrand Hpop | t].
      * rewrite Hst in E. cbn in E. discriminate.
      * apply Hn. rewrite (handlePlayerInput_ignored (state y) color); [exact Hi |].
        rewrite Hi. discriminate.
      * rewrite Htm in Hpop. discriminate.
      * apply Hn. exact Hi.
    + discriminate.
    + apply app_not_nil.
  - intros e y' Hs Hi. apply (step_to_idle y e y' Hs Hi).
Qed.

Lemma idle_only_before_first_game_witness :
  sequence (state sys_missed) <> [].
Proof.
  refine (proj1 (proj2 (idle_only_before_first_game sys_missed _)) _).
  - apply (run_reachable (second_round ++ [pressColor 900 COLORS.RED]) initialSys);
      [apply reachable_init | vm_compute; reflexivity].
  - discriminate.
Defined.

(** ** The score *)

(** X14. The score moves in two ways only: an input that completes the
    round adds exactly 1 to it, and a press on a start button sets it to 0.
    Every other step (a wrong or an incomplete input, an ignored input, any
    timer) leaves it as it is, so a lost game keeps its score on screen until
    the next start. *)
Theorem score_changes (y : Sys) (e : Event) (y' : Sys) :
  reachable y ->
  step y e = Some y' ->
  currentScore (state y') = currentScore (state y)
  \/ (exists t color,
        e = pressColor t color
        /\ gameState (state y) = playing
        /\ index (sequence (state y)) (length (playerSequence (state y))) = color
        /\ length (playerSequence (state y) ++ [color]) = length (sequence (state y))
        /\ currentScore (state y') = currentScore (state y) + 1)
  \/ (exists t r, e = pressStart t r /\ currentScore (state y') = 0).
Proof.
  intros Hr Hs.
  destruct (step_inv _ _ _ Hs) as (y0 & now & acts & Hh & ->).
  destruct (dispatch_state y0 now acts) as (_ & _ & -> & _).
  destruct Hh as [t r Hrand | t color | r due cb rest Hrand Hpop | t].
  - right. right. exists t, r. split; reflexivity.
  - input_paths (state y) color; rewrite E.
    + now left.
    + left. destruct (highScore (state y) <? currentScore (state y)); reflexivity.
    + right. left. exists t, color. repeat split; auto.
    + now left.
  - left. destruct (pop_earliest_In _ _ _ Hpop) as [Hfired _].
    destruct cb as [| | k |]; cbn [run_callback state]; try reflexivity.
    + now destruct (playSequence_resume_effect k (state y)) as (_ & -> & _).
    + now elim (reachable_timers y Hr due callStartGame Hfired).
  - now left.
Qed.

Lemma score_changes_witness :
  currentScore (state sys_extended) = currentScore (state sys_second_turn)
  \/ (exists t color,
        timerFires (1 # 2) = pressColor t color
        /\ gameState (state sys_second_turn) = playing
        /\ index (sequence (state sys_second_turn))
                 (length (playerSequence (state sys_second_turn))) = color
        /\ length (playerSequence (state sys_second_turn) ++ [color])
           = length (sequence (state sys_second_turn))
        /\ currentScore (state sys_extended)
           = currentScore (state sys_second_turn) + 1)
  \/ (exists t r, timerFires (1 # 2) = pressStart t r
                  /\ currentScore (state sys_extended) = 0).
Proof.
  refine (score_changes sys_second_turn (timerFires (1 # 2)) sys_extended _ _).
  - apply (run_reachable second_round initialSys);
      [apply reachable_init | vm_compute; reflexivity].
  - vm_compute. reflexivity.
Defined.

(** How a step can end in [gameOver]: by a wrong input, or by staying
    there with score and high score unchanged. *)
Lemma step_to_gameOver (y : Sys) (e : Event) (y' : Sys) :
  step y e = Some y' ->
  gameState (state y') = gameOver ->
  (currentScore (state y') = currentScore (state y)
   /\ highScore (state y') = Nat.max (highScore (state y)) (currentScore (state y)))
  \/ (gameState (state y) = gameOver
      /\ currentScore (state y') = currentScore (state y)
      /\ highScore (state y') = highScore (state y)).
Proof.
  intros Hs.
  destruct (step_inv _ _ _ Hs) as (y0 & now & acts & Hh & ->).
  destruct (dispatch_state y0 now acts) as (_ & _ & -> & -> & ->).
  destruct Hh as [t r Hrand | t color | r due cb rest Hrand Hpop | t].
  - cbn. discriminate.
  - input_paths (state y) color; rewrite E.
    + cbn. auto.
    + intros _. left.
      destruct (Nat.ltb_spec (highScore (state y)) (currentScore (state y))); cbn;
        split; lia.
    + cbn. discriminate.
    + cbn. congruence.
  - destruct cb as [| | k |]; cbn [run_callback state];
      try (cbn; auto; discriminate).
    destruct (playSequence_resume_effect k (state y))
      as (_ & -> & -> & [[-> _] | [-> _]] & _); [auto | discriminate].
  - cbn. auto.
Qed.

(** X15. Whenever the state is [gameOver], the high score is at least the
    score of the game that was lost: the comparison made on the failure path
    is still true for what the game-over screen shows, until the next
    start. *)
Theorem gameOver_score_within_highScore (y : Sys) :
  reachable y ->
  gameState (state y) = gameOver ->
  currentScore (state y) <= highScore (state y).
Proof.
  induction 1 as [| y e y' Hr IH Hs]; [cbn; discriminate |].
  intros Hg.
  destruct (step_to_gameOver y e y' Hs Hg) as [[-> ->] | (Hy & -> & ->)];
    [lia | now apply IH].
Qed.

Lemma gameOver_score_within_highScore_witness :
  currentScore (state sys_missed) <= highScore (state sys_missed).
Proof.
  refine (gameOver_score_within_highScore sys_missed _ eq_refl).
  apply (run_reachable (second_round ++ [pressColor 900 COLORS.RED]) initialSys);
    [apply reachable_init | vm_compute; reflexivity].
Defined.

(** ** Sounds *)

Lemma obj_get_set {V : Type} (key key' : string) (v : V) (o : Obj V) :
  obj_get key (obj_set key' v o)
  = if String.eqb key' key then Some v else obj_get key o.
Proof.
  induction o as [|[k w] o IH]; cbn [obj_set obj_get].
  - reflexivity.
  - destruct (String.eqb_spec k key') as [-> | Hk]; cbn [obj_get].
    + destruct (String.eqb key' key); reflexivity.
    + rewrite IH.
      destruct (String.eqb_spec k key) as [-> | Hk2]; [| reflexivity].
      destruct (String.eqb_spec key' key) as [-> | _]; [congruence | reflexivity].
Qed.

Lemma obj_get_keys {V : Type} (key : string) (o : Obj V) :
  existsb (String.eqb key) (obj_keys o)
  = match obj_get key o with Some _ => true | None => false end.
Proof.
  induction o as [|[k w] o IH]; cbn [obj_keys map existsb obj_get fst]; [reflexivity |].
  rewrite (String.eqb_sym key k).
  destruct (String.eqb k key); [reflexivity | exact IH].
Qed.

(** The loop of [loadSounds] over a list of keys: a key it has visited holds
    what was loaded for it, any other key what it held before. *)
Lemma loadSounds_fold {Sound : Type} (createAsync : Asset -> option Sound)
      (sounds : Obj (option Asset)) (keys : list string) :
  forall (loaded : Obj (option Sound)) (key : string),
    obj_get key (fold_left (loadSounds_step createAsync sounds) keys loaded)
    = if existsb (String.eqb key) keys
      then Some (match obj_get key sounds with
                 | Some (Some asset) => createAsync asset
                 | _ => None
                 end)
      else obj_get key loaded.
Proof.
  induction keys as [|k keys IH]; intros loaded key; cbn [fold_left existsb];
    [reflexivity |].
  rewrite IH.
  destruct (existsb (String.eqb key) keys); [now rewrite orb_true_r |].
  rewrite orb_false_r. unfold loadSounds_step.
  rewrite (String.eqb_sym key k).
  destruct (obj_get k sounds) as [[asset |] |] eqn:Ek; rewrite obj_get_set;
    destruct (String.eqb_spec k key) as [<- | _]; try reflexivity;
    rewrite Ek; reflexivity.
Qed.

Lemma loadSounds_get {Sound : Type} (createAsync : Asset -> option Sound)
      (sounds : Obj (option Asset)) (key : string) :
  obj_get key (loadSounds createAsync sounds)
  = match obj_get key sounds with
    | Some (Some asset) => Some (createAsync asset)
    | Some None => Some None
    | None => None
    end.
Proof.
  unfold loadSounds. rewrite loadSounds_fold, obj_get_keys.
  destruct (obj_get key sounds) as [[asset |] |]; reflexivity.
Qed.

(** X16. [loadSounds] builds a table with exactly the keys of the table of
    sound files it is given: under each key it stores what creating the sound
    gave, [null] when the creation was rejected or the entry was empty, and
    nothing under a key the table does not have.  A failure never leaves a
    key out, and never stops the loop. *)
Theorem loadSounds_covers_table {Sound : Type} (createAsync : Asset -> option Sound)
        (sounds : Obj (option Asset)) (key : string) :
  obj_get key (loadSounds createAsync sounds)
  = match obj_get key sounds with
    | Some (Some asset) => Some (createAsync asset)
    | Some None => Some None
    | None => None
    end
  /\ (In key (obj_keys (loadSounds createAsync sounds)) <-> In key (obj_keys sounds)).
Proof.
  split; [apply loadSounds_get |].
  assert (Hin : forall (V : Type) (o : Obj V),
            In key (obj_keys o) <-> obj_get key o <> None).
  { intros V o. induction o as [|[k w] o IH]; cbn [obj_keys map In obj_get fst].
    - split; [contradiction | congruence].
    - destruct (String.eqb_spec k key) as [-> | Hk].
      + split; [discriminate | auto].
      + unfold obj_keys in IH. rewrite <- IH. split; [intros [? | ?] |]; tauto. }
  rewrite !Hin, loadSounds_get.
  destruct (obj_get key sounds) as [[asset |] |]; split; congruence.
Qed.

(** X17. Once [loadSounds] has stored its table, [playSound] of a colour of
    the game or of ['ERROR'] replays the sound created from that colour's
    file, and logs the warning exactly when the creation was rejected; until
    then, with the empty table of the first render, every [playSound] only
    logs the warning. *)
Theorem playSound_after_loading {Sound : Type} (createAsync : Asset -> option Sound)
        (color : ColorType) :
  In color (ERROR :: colorsArray) ->
  (exists asset,
      obj_get (key_of color) SOUNDS = Some (Some asset)
      /\ playSound_outcome (loadSounds createAsync SOUNDS) color
         = match createAsync asset with
           | Some sound => replayAsync sound
           | None => warn_not_loaded
           end)
  /\ playSound_outcome (@nil (string * option Sound)) color = warn_not_loaded.
Proof.
  intros Hin. split; [| reflexivity].
  unfold playSound_outcome. rewrite loadSounds_get.
  cbn in Hin.
  destruct Hin as [<- | [<- | [<- | [<- | [<- | []]]]]]; eexists; split;
    reflexivity.
Qed.

Lemma playSound_after_loading_witness :
  playSound_outcome
    (loadSounds (fun asset =>
                   if String.eqb asset "./assets/sounds/red.mp3" then None
                   else Some asset)
                SOUNDS)
    COLORS.RED
  = warn_not_loaded.
Proof.
  destruct (proj1 (playSound_after_loading
                     (fun asset =>
                        if String.eqb asset "./assets/sounds/red.mp3" then None
                        else Some asset)
                     COLORS.RED (or_intror (or_intror (or_introl eq_refl)))))
    as (asset & Ha & ->).
  inversion Ha. reflexivity.
Defined.

Lemma sound_file_exists (id : ColorType) :
  In id (ERROR :: colorsArray) ->
  exists asset, obj_get (key_of id) SOUNDS = Some (Some asset).
Proof.
  cbn. intros [<- | [<- | [<- | [<- | [<- | []]]]]]; eexists; reflexivity.
Qed.

Lemma playSequence_loop_sounds (seq : list ColorType) (i : nat) :
  Forall (fun id => In id seq) (sounds_played (playSequence_loop seq i)).
Proof.
  unfold playSequence_loop.
  destruct (Nat.ltb_spec i (length seq)); cbn; repeat constructor.
  unfold index. now apply nth_In.
Qed.

(** X18. The game only asks for sounds that have a file.  With colour
    buttons wired to the four colours and a sequence made of them, every
    [playSound] that an input, the start of a playback or the resumption of
    a playback performs names a key of [SOUNDS] with a sound file: a colour,
    or ['ERROR'] on the failure path. *)
Theorem game_sounds_have_files (s : State) (color : ColorType) (k : Playback) :
  In color colorsArray ->
  Forall (fun c => In c colorsArray) (sequence s) ->
  Forall (fun c => In c colorsArray) (pb_sequence k) ->
  Forall (fun id => exists asset, obj_get (key_of id) SOUNDS = Some (Some asset))
         (sounds_played (handlePlayerInput s color)
          ++ sounds_played (playSequence s)
          ++ sounds_played (playSequence_resume k)).
Proof.
  intros Hc Hs Hk.
  assert (Hseq : forall seq l,
            Forall (fun c => In c colorsArray) seq ->
            Forall (fun id => In id seq) l ->
            Forall (fun id => exists asset,
                        obj_get (key_of id) SOUNDS = Some (Some asset)) l).
  { intros seq l Hall Hl. rewrite Forall_forall in *.
    intros id Hid. apply sound_file_exists. right. apply Hall, Hl, Hid. }
  assert (Hcolor : exists asset, obj_get (key_of color) SOUNDS = Some (Some asset))
    by (apply sound_file_exists; now right).
  assert (Herr : exists asset, obj_get (key_of ERROR) SOUNDS = Some (Some asset))
    by (apply sound_file_exists; now left).
  apply Forall_app. split; [| apply Forall_app; split].
  - destruct (handlePlayerInput_cases s color)
      as [[Hn E] | [(Hp & Hne & E) | [(Hp & He & Hl & E) | (Hp & He & Hl & E)]]];
      rewrite E.
    + constructor.
    + destruct (highScore s <? currentScore s); cbn; repeat constructor; auto.
    + cbn. repeat constructor; auto.
    + cbn. repeat constructor; auto.
  - apply (Hseq (sequence s)); [exact Hs |].
    unfold playSequence.
    destruct (negb _ || _); [constructor | apply playSequence_loop_sounds].
  - apply (Hseq (pb_sequence k)); [exact Hk |].
    destruct k as [seq i ph]. unfold playSequence_resume.
    cbn [pb_sequence pb_i pb_phase].
    destruct ph; [destruct (i <? length seq - 1); [constructor |] |];
      cbn [sounds_played]; apply playSequence_loop_sounds.
Qed.

Lemma game_sounds_have_files_witness :
  Forall (fun id => exists asset, obj_get (key_of id) SOUNDS = Some (Some asset))
         (sounds_played (handlePlayerInput about_to_miss COLORS.BLUE)
          ++ sounds_played (playSequence about_to_miss)
          ++ sounds_played
               (playSequence_resume
                  (mkPlayback [COLORS.GREEN; COLORS.RED] 0 gapWait))).
Proof.
  apply (game_sounds_have_files about_to_miss COLORS.BLUE
           (mkPlayback [COLORS.GREEN; COLORS.RED] 0 gapWait)).
  - cbn. repeat (first [left; reflexivity | right]).
  - repeat (apply Forall_cons;
            [cbn; repeat (first [left; reflexivity | right]) |]).
    apply Forall_nil.
  - repeat (apply Forall_cons;
            [cbn; repeat (first [left; reflexivity | right]) |]).
    apply Forall_nil.
Defined.

(** ** What is on screen *)

Lemma handlePlayerInput_nil_iff (s : State) (color : ColorType) :
  handlePlayerInput s color = [] <-> gameState s <> playing.
Proof.
  split; [| apply handlePlayerInput_ignored].
  intros E Hp.
  destruct (handlePlayerInput_cases s color)
    as [[Hn _] | [(_ & _ & E') | [(_ & _ & _ & E') | (_ & _ & _ & E')]]];
    [contradiction | | |]; rewrite E in E'; discriminate.
Qed.

(** The colours of the colour buttons among pressable elements. *)
Lemma render_touchables (s : State) :
  touchables (render s)
  = if GameState_eqb (gameState s) idle
    then [([styles "startButton"], onPress_startGame, false)]
    else flat_map touchables
                  [renderButton s COLORS.GREEN (styles "greenButton");
                   renderButton s COLORS.RED (styles "redButton");
                   renderButton s COLORS.YELLOW (styles "yellowButton");
                   renderButton s COLORS.BLUE (styles "blueButton")]
         ++ when (GameState_eqb (gameState s) gameOver)
                 ([styles "startButton"], onPress_startGame, false).
Proof.
  unfold render.
  destruct (GameState_eqb (gameState s) idle); cbn [touchables].
  - destruct (0 <? highScore s); reflexivity.
  - destruct (0 <? highScore s);
      destruct (gameState s); reflexivity.
Qed.

(** X19. The colour buttons on screen are the four colours, in the order
    green, red, yellow, blue, each wired to [handlePlayerInput] of its own
    colour; the idle screen has none.  A colour button is disabled exactly
    when a press on it would be ignored by [handlePlayerInput], so the
    enabling on screen and the guard of the handler agree. *)
Theorem colour_buttons_match_handler (s : State) :
  flat_map (fun t => match snd (fst t) with
                     | onPress_handlePlayerInput color => [color]
                     | onPress_startGame => []
                     end)
           (touchables (render s))
  = (if GameState_eqb (gameState s) idle then [] else colorsArray)
  /\ (forall style color disabled r,
        In (style, onPress_handlePlayerInput color, disabled) (touchables (render s)) ->
        (disabled = true <-> press s (onPress_handlePlayerInput color) r = [])).
Proof.
  rewrite render_touchables. split.
  - destruct (GameState_eqb (gameState s) idle); [reflexivity |].
    destruct (GameState_eqb (gameState s) gameOver); reflexivity.
  - intros style color disabled r Hin. cbn [press].
    rewrite handlePlayerInput_nil_iff.
    assert (Hd : disabled = negb (GameState_eqb (gameState s) playing)).
    { destruct (GameState_eqb (gameState s) idle).
      - destruct Hin as [H | []]. discriminate.
      - apply in_app_or in Hin. destruct Hin as [Hin | Hin].
        + cbn in Hin.
          repeat (destruct Hin as [H | Hin]; [now inversion H |]). contradiction.
        + destruct (GameState_eqb (gameState s) gameOver); cbn in Hin;
            [destruct Hin as [H | []]; discriminate | contradiction]. }
    rewrite Hd.
    destruct (GameState_eqb_spec (gameState s) playing); cbn; split;
      congruence.
Qed.

Lemma in_when {A : Type} (cond : bool) (x y : A) :
  In y (when cond x) <-> cond = true /\ x = y.
Proof.
  destruct cond; cbn.
  - split; [intros [H | []]; auto | intros [_ H]; auto].
  - split; [contradiction | intros [H _]; discriminate].
Qed.

Lemma colour_button_cases (s : State) (style : list StyleEntry) (onPress : OnPress)
      (disabled : bool) :
  In (style, onPress, disabled) (touchables (render s)) ->
  (style = [styles "startButton"] /\ onPress = onPress_startGame /\ disabled = false
   /\ (gameState s = idle \/ gameState s = gameOver))
  \/ (gameState s <> idle
      /\ exists color st,
           In (color, st) [(COLORS.GREEN, styles "greenButton");
                           (COLORS.RED, styles "redButton");
                           (COLORS.YELLOW, styles "yellowButton");
                           (COLORS.BLUE, styles "blueButton")]
           /\ touchables (renderButton s color st) = [(style, onPress, disabled)]).
Proof.
  rewrite render_touchables.
  destruct (GameState_eqb_spec (gameState s) idle) as [Hi | Hn].
  - intros [H | []]. inversion H; subst. left. auto.
  - intros Hin. apply in_app_or in Hin. destruct Hin as [Hin | Hin].
    + right. split; [exact Hn |]. cbn [flat_map touchables renderButton app] in Hin.
      destruct Hin as [H | [H | [H | [H | []]]]]; inversion H; subst;
        eexists _, _; (split; [| reflexivity]); cbn; auto 6.
    + left. destruct (GameState_eqb_spec (gameState s) gameOver) as [Hg | Hg];
        cbn in Hin; [| contradiction].
      destruct Hin as [H | []]. inversion H; subst. auto.
Qed.

(** X20. The screen offers [startGame] exactly in the states [idle] and
    [gameOver]: in these it shows one start button, never disabled, and in
    [watching] and [playing] it shows none. *)
Theorem start_button_offered (s : State) :
  (In onPress_startGame (map (fun t => snd (fst t)) (touchables (render s)))
   <-> gameState s = idle \/ gameState s = gameOver)
  /\ (forall style disabled,
        In (style, onPress_startGame, disabled) (touchables (render s)) ->
        disabled = false)
  /\ length (filter (fun t => match snd (fst t) with
                              | onPress_startGame => true
                              | onPress_handlePlayerInput _ => false
                              end)
                    (touchables (render s))) <= 1.
Proof.
  split; [split | split].
  - intros Hin. apply in_map_iff in Hin. destruct Hin as ([[style onp] d] & E & Hin).
    cbn in E. subst onp.
    destruct (colour_button_cases s style _ d Hin)
      as [(_ & _ & _ & H) | (_ & color & st & _ & E)]; [exact H |].
    cbn in E. inversion E.
  - intros H. apply in_map_iff. rewrite render_touchables.
    exists ([styles "startButton"], onPress_startGame, false). split; [reflexivity |].
    destruct H as [-> | ->]; cbn; auto 10.
  - intros style disabled Hin.
    destruct (colour_button_cases s style _ disabled Hin)
      as [(_ & _ & H & _) | (_ & color & st & _ & E)]; [exact H |].
    cbn in E. inversion E.
  - rewrite render_touchables. destruct (gameState s); cbn; lia.
Qed.

(** X21. A colour button carries the highlight style exactly when it is the
    button of [activeButton], so at most one colour is highlighted at a
    time; and it carries the dimmed style exactly in the states [watching]
    and [gameOver]. *)
Theorem colour_button_styles (s : State) (style : list StyleEntry)
        (color : ColorType) (disabled : bool) :
  In (style, onPress_handlePlayerInput color, disabled) (touchables (render s)) ->
  (In (styles "activeButton") style <-> activeButton s = Some color)
  /\ (In (styles "disabledButton") style
      <-> gameState s = watching \/ gameState s = gameOver)
  /\ In (backgroundColor color) style.
Proof.
  intros Hin.
  destruct (colour_button_cases s style _ disabled Hin)
    as [(_ & H & _) | (_ & c & st & Hc & E)]; [discriminate |].
  cbn [touchables renderButton flat_map app] in E. inversion E; subst. clear E.
  assert (Hst : st <> styles "activeButton" /\ st <> styles "disabledButton").
  { cbn in Hc. destruct Hc as [H | [H | [H | [H | []]]]]; inversion H;
      split; discriminate. }
  destruct Hst as [Hst1 Hst2].
  assert (Hact : (match activeButton s with
                  | Some a => ColorType_eqb a color
                  | None => false
                  end) = true <-> activeButton s = Some color).
  { destruct (activeButton s) as [a |]; [| split; discriminate].
    destruct (ColorType_eqb_spec a color); split; congruence. }
  assert (Hdis : GameState_eqb (gameState s) watching
                 || GameState_eqb (gameState s) gameOver = true
                 <-> gameState s = watching \/ gameState s = gameOver).
  { destruct (gameState s); cbn; split; intros H;
      try discriminate; auto; destruct H; discriminate. }
  rewrite <- Hact, <- Hdis.
  cbn [In app]. rewrite !in_app_iff, !in_when.
  split; [| split]; [| | auto].
  - split; [| auto 6].
    intros [H | [H | [H | [[H _] | [_ H]]]]]; try discriminate; congruence.
  - split; [| auto 6].
    intros [H | [H | [H | [[_ H] | [H _]]]]]; try discriminate; congruence.
Qed.

Lemma colour_button_styles_witness :
  In (styles "activeButton")
     [styles "button"; styles "greenButton"; backgroundColor COLORS.GREEN;
      styles "activeButton"; styles "disabledButton"]
  <-> activeButton (state sys_showing) = Some COLORS.GREEN.
Proof.
  refine (proj1 (colour_button_styles (state sys_showing) _ COLORS.GREEN true _)).
  cbn. left. reflexivity.
Defined.
